(** * Market exchange simulator: publisher, history ring and subscriber

    A shallow embedding of the C++ sources

    - [include/protocol.hpp]     the two wire structs,
    - [include/ring_buffer.hpp]  [core::RingBuffer],
    - [src/publisher.cpp]        tick generation and the retransmission server,
    - [src/subscriber.cpp]       the ingest loop, gap recovery, the trading
                                 rule and the interrupt handler,

    followed by the properties of the wire protocol, of the ring and of the
    recovery state machine that the specification states about them.

    Conventions.  Unsigned 64-bit integers are [Z] with the wrap-around of
    the increments written out.  [double] is an interface ([DoubleArith],
    [DoubleSqrt], [DoubleRepr]) with two instances: IEEE binary64 (Rocq's
    primitive floats) and exact rational arithmetic.  Sockets, clocks and the
    random generator are inputs of the step functions.  Text written to
    stdout and stderr is a list of [event]s. *)

From Stdlib Require Import ZArith Lia Floats QArith Qcanon Strings.Byte String Uint63.
From stdpp Require Import base list strings gmap.

Open Scope Z_scope.

(** ** The [double] interface *)

(** The arithmetic the programs use on [double]: conversion from an integer,
    decimal literals, the four operations and the comparisons [<] and [<=]
    ([a >= b] is [b <= a]). *)
Class DoubleArith (D : Type) := {
  d_of_Z : Z → D;
  d_lit : Q → D;
  dadd : D → D → D;
  dsub : D → D → D;
  dmul : D → D → D;
  ddiv : D → D → D;
  dltb : D → D → bool;
  dleb : D → D → bool
}.

(** [std::sqrt]. *)
Class DoubleSqrt (D : Type) := dsqrt : D → D.

(** The 64-bit object representation of a [double], as [memcpy] and the
    socket calls see it. *)
Class DoubleRepr (D : Type) := dbits : D → Z.

Module binary64.

(** Integer to binary64, round to nearest (exact below 2^53). *)
Definition of_Z (z : Z) : float :=
  if z <? 0 then PrimFloat.opp (PrimFloat.of_uint63 (Uint63.of_Z (- z)))
  else PrimFloat.of_uint63 (Uint63.of_Z z).

(** A decimal literal [n/d] with [n] and [d] below 2^53: one correctly
    rounded division gives the double nearest to it. *)
Definition lit (q : Q) : float :=
  PrimFloat.div (of_Z (Qnum q)) (of_Z (Z.pos (Qden q))).

(** Sign, biased exponent and fraction packed as IEEE 754 lays them out.
    Every NaN is mapped to the quiet NaN 0x7FF8000000000000. *)
Definition bits (f : float) : Z :=
  let sign (s : bool) := if s then 2 ^ 63 else 0 in
  match Prim2SF f with
  | S754_zero s => sign s
  | S754_infinity s => sign s + 2047 * 2 ^ 52
  | S754_nan => 2047 * 2 ^ 52 + 2 ^ 51
  | S754_finite s m e =>
      sign s + (if 2 ^ 52 <=? Z.pos m
                then (e + 1075) * 2 ^ 52 + (Z.pos m - 2 ^ 52)
                else Z.pos m)
  end.

#[export] Instance arith : DoubleArith float := {|
  d_of_Z := of_Z;
  d_lit := lit;
  dadd := PrimFloat.add;
  dsub := PrimFloat.sub;
  dmul := PrimFloat.mul;
  ddiv := PrimFloat.div;
  dltb := PrimFloat.ltb;
  dleb := PrimFloat.leb
|}.

#[export] Instance sqrt : DoubleSqrt float := PrimFloat.sqrt.

#[export] Instance repr : DoubleRepr float := bits.

End binary64.

Module exact.

(** Exact arithmetic on canonical rationals: [double] without rounding. *)
#[export] Instance arith : DoubleArith Qc := {|
  d_of_Z := λ z, Q2Qc (inject_Z z);
  d_lit := Q2Qc;
  dadd := Qcplus;
  dsub := Qcminus;
  dmul := Qcmult;
  ddiv := Qcdiv;
  dltb := λ a b, if Qclt_le_dec a b then true else false;
  dleb := λ a b, if Qclt_le_dec b a then false else true
|}.

End exact.

(** ** Bytes *)

Definition byte_of_Z (z : Z) : byte :=
  default x00 (Byte.of_N (Z.to_N (z mod 256))).

(** The [n] low-order bytes of [v], least significant first. *)
Fixpoint le_bytes (n : nat) (v : Z) : list byte :=
  match n with
  | O => []
  | S n' => byte_of_Z v :: le_bytes n' (v / 256)
  end.

(** [strncpy(dest, src, n)]: [src] is the text of a NUL-terminated string
    (without its terminator).  At most [n] characters are copied; when [src]
    is shorter, the rest of the [n] bytes is filled with NUL; [dest] beyond
    [n] is left as it was. *)
Definition strncpy (dest src : list byte) (n : nat) : list byte :=
  let copied := take n src in
  copied ++ replicate (n - length copied) x00 ++ drop n dest.

(** The string a [char] array is read as: the bytes before the first NUL.
    (A 4-byte field without NUL would be read past its end; the model stops
    at the end of the field.) *)
Fixpoint c_str (field : list byte) : list byte :=
  match field with
  | [] => []
  | b :: rest => if Byte.eqb b x00 then [] else b :: c_str rest
  end.

Definition two64 : Z := 2 ^ 64.

(** ** protocol.hpp *)

Module protocol.
Section Structs.
Context {D : Type}.

(** [struct alignas(32) TickPacket]; [symbol] is [char symbol[4]]. *)
Record TickPacket := {
  sequence_num : Z;
  timestamp : Z;
  price : D;
  quantity : Z;
  symbol : list byte
}.

Record RetransmitRequest := { missed_sequence_num : Z }.

(** [sizeof(protocol::TickPacket)] and [sizeof(protocol::RetransmitRequest)]. *)
Definition sizeof_TickPacket : Z := 32.
Definition sizeof_RetransmitRequest : Z := 8.

(** The 32 bytes of a [TickPacket] object on a little-endian host, which
    [sendto] and [send] put on the wire: 8 + 8 + 8 + 4 + 4. *)
Definition tick_bytes `{!DoubleRepr D} (t : TickPacket) : list byte :=
  le_bytes 8 (sequence_num t) ++ le_bytes 8 (timestamp t) ++
  le_bytes 8 (dbits (price t)) ++ le_bytes 4 (quantity t) ++
  resize 4 x00 (symbol t).

(** [protocol::TickPacket tick{}]: every member zero. *)
Definition zero_tick `{!DoubleArith D} : TickPacket :=
  {| sequence_num := 0; timestamp := 0; price := d_of_Z 0; quantity := 0;
     symbol := replicate 4 x00 |}.
End Structs.
Arguments TickPacket : clear implicits.
End protocol.

(** ** ring_buffer.hpp *)

Module core.
Section RingBuffer.
Context {T : Type}.

(** [buffer_], [seq_nums_] and [max_seq_]. *)
Record RingBuffer := {
  buffer_ : list T;
  seq_nums_ : list Z;
  max_seq_ : Z
}.

(** Default construction.  Only [max_seq_] has an initialiser; the two
    arrays start with whatever their storage holds, which is the argument
    here. *)
Definition construct (buffer0 : list T) (seq_nums0 : list Z) : RingBuffer :=
  {| buffer_ := buffer0; seq_nums_ := seq_nums0; max_seq_ := 0 |}.

(** Storage that was zero-filled: every slot holds the value-initialised
    item [zero] and sequence number 0. *)
Definition zeroed (Capacity : Z) (zero : T) : RingBuffer :=
  construct (replicate (Z.to_nat Capacity) zero) (replicate (Z.to_nat Capacity) 0).

Variable Capacity : Z.

Definition slot (seq_num : Z) : nat := Z.to_nat (seq_num mod Capacity).

Definition push (seq_num : Z) (item : T) (r : RingBuffer) : RingBuffer :=
  let index := slot seq_num in
  {| buffer_ := <[index := item]> (buffer_ r);
     seq_nums_ := <[index := seq_num]> (seq_nums_ r);
     max_seq_ := if max_seq_ r <? seq_num then seq_num else max_seq_ r |}.

(** [get] returns [true] and writes [out_item], here [Some item], or
    returns [false], here [None]. *)
Definition get (seq_num : Z) (r : RingBuffer) : option T :=
  if (Capacity <=? max_seq_ r) && (seq_num <=? max_seq_ r - Capacity) then None
  else
    let index := slot seq_num in
    match seq_nums_ r !! index with
    | Some recorded => if recorded =? seq_num then buffer_ r !! index else None
    | None => None
    end.

(** A run of pushes, first to last. *)
Definition push_all (items : list (Z * T)) (r : RingBuffer) : RingBuffer :=
  foldl (λ acc p, push p.1 p.2 acc) r items.

(** Both arrays have [Capacity] slots. *)
Definition well_formed (r : RingBuffer) : Prop :=
  length (buffer_ r) = Z.to_nat Capacity ∧
  length (seq_nums_ r) = Z.to_nat Capacity.

(** No slot records a sequence number above [max_seq_]. *)
Definition bounded (r : RingBuffer) : Prop :=
  Forall (λ recorded, recorded ≤ max_seq_ r) (seq_nums_ r).

(** [s] is stored with item [t] and is not yet behind the window. *)
Definition retains (s : Z) (t : T) (r : RingBuffer) : Prop :=
  well_formed r ∧ max_seq_ r < s + Capacity ∧
  seq_nums_ r !! slot s = Some s ∧
  buffer_ r !! slot s = Some t.
End RingBuffer.
Arguments RingBuffer : clear implicits.
End core.

(** ** publisher.cpp *)

Module publisher.
Import protocol core.

Definition RING_BUFFER_SIZE : Z := 10000.

(** The symbol table of the tick generator, in its order. *)
Definition symbols : list string :=
  ["AAPL"; "MSFT"; "GOOG"; "AMZN"; "META"; "TSLA"; "NVDA"; "JPM";
   "JNJ";  "V";    "UNH";  "PG";   "HD";   "DIS";  "MA";   "BAC";
   "VZ";   "CRM";  "XOM";  "PFE";  "NKE";  "INTC"; "T";    "KO";
   "MRK";  "PEP";  "ABT";  "WMT";  "CVX";  "CSCO"; "MCD";  "ABBV";
   "MDT";  "BMY";  "ACN";  "AVGO"; "TXN";  "COST"; "NEE";  "QCOM";
   "DHR";  "LIN";  "PM";   "UNP";  "LOW";  "HON";  "UPS";  "IBM";
   "SBUX"; "CAT"]%string.

(** [symbols[sym_idx]] as the bytes of the string literal. *)
Definition symbol_text (sym_idx : nat) : list byte :=
  list_byte_of_string (default ""%string (symbols !! sym_idx)).

(** What the publisher prints. *)
Inductive event {D : Type} :=
  | Metrics (msgs : Z) (last_symbol : list byte) (last_price : D)
  | DroppedBroadcast (seq : Z)
  | AcceptedRequest
  | ClientRequested (seq : Z)
  | SentMissingPacket
  | NoLongerInRing
  | FailedToReadRequest (bytes_read : Z).
Arguments event : clear implicits.

Section Publisher.
Context {D : Type} `{!DoubleArith D} `{!DoubleRepr D}.

(** One value per distribution the generator may consult for one tick, in
    the order of the calls: [sym_dist], [price_delta_dist],
    [fundamental_dist], then [fundamental_depth] or [anomaly_dist] and
    [anomaly_depth], and [drop_dist].  A value whose call is not reached is
    not looked at. *)
Record Draws := {
  sym_dist : Z;
  price_delta_dist : D;
  fundamental_dist : Z;
  fundamental_depth : D;
  anomaly_dist : Z;
  anomaly_depth : D;
  drop_dist : Z
}.

(** What the environment supplies for one tick: the draws, the clock
    reading taken before the send, and the return value of [sendto]. *)
Record TickInput := {
  draws : Draws;
  now_ns : Z;
  sent : Z
}.

(** [current_prices[i]]; the index is a symbol index, always in range. *)
Definition price_at (prices : list D) (i : nat) : D :=
  default (d_lit 0) (prices !! i).

(** [if (current_prices[i] < 1.0) current_prices[i] = 1.0;] *)
Definition floor_at_one (prices : list D) (i : nat) : list D :=
  if dltb (price_at prices i) (d_lit 1) then <[i := d_lit 1]> prices else prices.

(** Base prices 100.00, 107.00, 114.00, ... *)
Definition base_prices : list D :=
  (λ i, dadd (d_lit 100) (d_of_Z (i * 7))) <$> seqZ 0 50.

(** The random-walk step on the chosen symbol, with the floor. *)
Definition random_walk (dr : Draws) (current_prices : list D) : list D :=
  let sym_idx := Z.to_nat (sym_dist dr) in
  let p := price_at current_prices sym_idx in
  floor_at_one
    (<[sym_idx := dadd p (dmul p (price_delta_dist dr))]> current_prices) sym_idx.

(** Price generation of one tick: the new [current_prices] and
    [published_price]. *)
Definition generate_price (dr : Draws) (current_prices : list D) : list D * D :=
  let sym_idx := Z.to_nat (sym_dist dr) in
  let current_prices := random_walk dr current_prices in
  let published_price := price_at current_prices sym_idx in
  if fundamental_dist dr =? 1 then
    let p := price_at current_prices sym_idx in
    let current_prices :=
      floor_at_one
        (<[sym_idx := dsub p (dmul p (fundamental_depth dr))]> current_prices) sym_idx in
    (current_prices, price_at current_prices sym_idx)
  else if anomaly_dist dr =? 1 then
    (current_prices,
     dsub published_price (dmul published_price (anomaly_depth dr)))
  else (current_prices, published_price).

(** The tick that is built from [tick{}]; [quantity] is a [uint32_t]. *)
Definition make_tick (seq_num : Z) (sym_idx : nat) (published_price : D)
    (now_ns : Z) : TickPacket D :=
  let tick : TickPacket D := zero_tick in
  {| sequence_num := seq_num;
     symbol := strncpy (symbol tick) (symbol_text sym_idx) (4 - 1);
     price := published_price;
     quantity := (100 + seq_num mod 50) mod 2 ^ 32;
     timestamp := now_ns |}.

(** The locals of [main] that the event handler captures, the function
    statics of the generator, and two histories: the datagrams handed to
    [sendto] and the lines printed. *)
Record State := {
  seq_num : Z;
  msgs_sent_this_sec : Z;
  last_sent_tick : TickPacket D;
  current_prices : list D;
  prices_initialised : bool;
  ring_buffer : RingBuffer (TickPacket D);
  datagrams : list (list byte);
  printed : list (event D)
}.

(** State on entering the event loop; the ring is default-constructed on
    the storage given. *)
Definition initial (buffer0 : list (TickPacket D)) (seq_nums0 : list Z) : State :=
  {| seq_num := 1;
     msgs_sent_this_sec := 0;
     last_sent_tick := zero_tick;
     current_prices := replicate 50 (d_lit 0);
     prices_initialised := false;
     ring_buffer := construct buffer0 seq_nums0;
     datagrams := [];
     printed := [] |}.

(** One iteration of the batch loop. *)
Definition emit_tick (inp : TickInput) (st : State) : State :=
  let dr := draws inp in
  let prices :=
    if prices_initialised st then current_prices st else base_prices in
  let sym_idx := Z.to_nat (sym_dist dr) in
  let '(prices, published_price) := generate_price dr prices in
  let tick := make_tick (seq_num st) sym_idx published_price (now_ns inp) in
  let ring := push RING_BUFFER_SIZE (seq_num st) tick (ring_buffer st) in
  let drop_simulation := drop_dist dr =? 1 in
  {| seq_num := (seq_num st + 1) mod two64;
     msgs_sent_this_sec :=
       if negb drop_simulation && (0 <? sent inp)
       then (msgs_sent_this_sec st + 1) mod two64
       else msgs_sent_this_sec st;
     last_sent_tick := tick;
     current_prices := prices;
     prices_initialised := true;
     ring_buffer := ring;
     datagrams :=
       if drop_simulation then datagrams st
       else datagrams st ++ [tick_bytes tick];
     printed :=
       if drop_simulation then printed st ++ [DroppedBroadcast (seq_num st)]
       else printed st |}.

(** The retransmission exchange on an accepted connection: the bytes
    written to the client before [close], and the lines printed.
    [bytes_read] and [req] are what [recv] returned and filled in. *)
Definition answer_request (bytes_read : Z) (req : RetransmitRequest)
    (ring : RingBuffer (TickPacket D)) : list byte * list (event D) :=
  if bytes_read =? sizeof_RetransmitRequest then
    match get RING_BUFFER_SIZE (missed_sequence_num req) ring with
    | Some recovery_tick =>
        (tick_bytes recovery_tick,
         [AcceptedRequest; ClientRequested (missed_sequence_num req);
          SentMissingPacket])
    | None =>
        ([], [AcceptedRequest; ClientRequested (missed_sequence_num req);
              NoLongerInRing])
    end
  else ([], [AcceptedRequest; FailedToReadRequest bytes_read]).

(** The sources the event loop reports as ready. *)
Inductive ready :=
  | MetricsTimer
  | MarketTickTimer (batch : nat → TickInput)
  | ListenerReadable (client_fd : Z) (bytes_read : Z) (req : RetransmitRequest).

Definition print (lines : list (event D)) (st : State) : State :=
  {| seq_num := seq_num st;
     msgs_sent_this_sec := msgs_sent_this_sec st;
     last_sent_tick := last_sent_tick st;
     current_prices := current_prices st;
     prices_initialised := prices_initialised st;
     ring_buffer := ring_buffer st;
     datagrams := datagrams st;
     printed := printed st ++ lines |}.

Definition reset_msgs_sent (st : State) : State :=
  {| seq_num := seq_num st;
     msgs_sent_this_sec := 0;
     last_sent_tick := last_sent_tick st;
     current_prices := current_prices st;
     prices_initialised := prices_initialised st;
     ring_buffer := ring_buffer st;
     datagrams := datagrams st;
     printed := printed st |}.

(** The handler passed to [loop.poll]: the new state and the bytes written
    to a retransmission client. *)
Definition on_ready (ev : ready) (st : State) : State * list byte :=
  match ev with
  | MetricsTimer =>
      (reset_msgs_sent
         (print [Metrics (msgs_sent_this_sec st) (symbol (last_sent_tick st))
                   (price (last_sent_tick st))] st), [])
  | MarketTickTimer batch =>
      (foldl (λ acc i, emit_tick (batch i) acc) st (seq 0 10), [])
  | ListenerReadable client_fd bytes_read req =>
      if 0 <=? client_fd then
        let '(response, lines) := answer_request bytes_read req (ring_buffer st) in
        (print lines st, response)
      else (st, [])
  end.

(** The tick that [emit_tick] builds, pushes and hands to [sendto]. *)
Definition emitted (inp : TickInput) (st : State) : TickPacket D :=
  last_sent_tick (emit_tick inp st).

(** The first component of an answer: the bytes written to the client. *)
Definition response (bytes_read s : Z) (ring : RingBuffer (TickPacket D))
    : list byte :=
  (answer_request bytes_read {| missed_sequence_num := s |} ring).1.

(** The publisher before its sequence counter wraps: the ring is well
    formed, records nothing above [max_seq_], and [max_seq_] is the last
    sequence number used. *)
Definition in_sequence (st : State) : Prop :=
  well_formed RING_BUFFER_SIZE (ring_buffer st) ∧ bounded (ring_buffer st) ∧
  max_seq_ (ring_buffer st) = seq_num st - 1 ∧ 1 ≤ seq_num st < two64.
End Publisher.
Arguments Draws : clear implicits.
Arguments TickInput : clear implicits.
Arguments State : clear implicits.
Arguments ready : clear implicits.
End publisher.

(** ** subscriber.cpp *)

Module subscriber.
Import protocol.

Definition SMA_PERIOD : Z := 100.

(** [SIGINT] of [<csignal>]: 2 on the POSIX systems the program is written
    for (BSD sockets, kqueue). *)
Definition SIGINT : Z := 2.

(** What the subscriber prints (stdout and stderr, in order). *)
Inductive event {D : Type} :=
  | GapDetected (expected got : Z)
  | Recovered (seq : Z) (price : D)
  | FailedToRecover (missed_seq : Z)
  | RecoveryConnectionFailed
  | Buy (sym : string) (price sma band : D)
  | SellTakeProfit (sym : string) (price profit : D)
  | SellStopLoss (sym : string) (price loss : D)
  | SellTimeStop (sym : string) (price loss : D)
  | UdpReceiveFailed
  | FatalError
  | ShuttingDown
  | OpenPosition (sym : string) (entry current unrealised : D)
  | FinalReport (realised unrealised total : D).
Arguments event : clear implicits.

Section Subscriber.
Context {D : Type} `{!DoubleArith D} `{!DoubleSqrt D}.

(** [struct SymbolState]; the [int] members are kept as integers. *)
Record SymbolState := {
  prices : list D;
  idx : Z;
  sum : D;
  position : Z;
  entry_price : D;
  pnl : D;
  trades : Z;
  ticks_held : Z
}.

(** The value [strategy_state[sym]] creates for a new symbol. *)
Definition new_symbol : SymbolState :=
  {| prices := []; idx := 0; sum := d_lit 0; position := 0;
     entry_price := d_lit 0; pnl := d_lit 0; trades := 0; ticks_held := 0 |}.

(** Moving-average window: append until [SMA_PERIOD] prices are held, then
    overwrite the oldest one. *)
Definition update_window (p : D) (s : SymbolState) : SymbolState :=
  if Z.of_nat (length (prices s)) <? SMA_PERIOD then
    {| prices := prices s ++ [p]; idx := idx s; sum := dadd (sum s) p;
       position := position s; entry_price := entry_price s; pnl := pnl s;
       trades := trades s; ticks_held := ticks_held s |}
  else
    let i := Z.to_nat (idx s) in
    let oldest := default (d_lit 0) (prices s !! i) in
    {| prices := <[i := p]> (prices s); idx := (idx s + 1) mod SMA_PERIOD;
       sum := dadd (dsub (sum s) oldest) p;
       position := position s; entry_price := entry_price s; pnl := pnl s;
       trades := trades s; ticks_held := ticks_held s |}.

(** [position = 1; entry_price = p; ticks_held = 0]. *)
Definition open_position (p : D) (s : SymbolState) : SymbolState :=
  {| prices := prices s; idx := idx s; sum := sum s; position := 1;
     entry_price := p; pnl := pnl s; trades := trades s; ticks_held := 0 |}.

(** [ticks_held++]. *)
Definition hold (s : SymbolState) : SymbolState :=
  {| prices := prices s; idx := idx s; sum := sum s; position := position s;
     entry_price := entry_price s; pnl := pnl s; trades := trades s;
     ticks_held := ticks_held s + 1 |}.

(** [pnl += profit; position = 0; trades++], the body of the three exits. *)
Definition close_position (profit : D) (s : SymbolState) : SymbolState :=
  {| prices := prices s; idx := idx s; sum := sum s; position := 0;
     entry_price := entry_price s; pnl := dadd (pnl s) profit;
     trades := trades s + 1; ticks_held := ticks_held s |}.

(** The band logic once the window is full: the new symbol state, the new
    [total_session_pnl], and the line printed. *)
Definition signals (sym : string) (p : D) (s : SymbolState) (total : D)
    : SymbolState * D * list (event D) :=
  let period := d_of_Z SMA_PERIOD in
  let current_sma := ddiv (sum s) period in
  let variance :=
    foldl (λ v q, dadd v (dmul (dsub q current_sma) (dsub q current_sma)))
          (d_lit 0) (prices s) in
  let variance := ddiv variance period in
  let std_dev := dsqrt variance in
  let std_dev := if dltb std_dev (d_lit 0.10) then d_lit 0.10 else std_dev in
  if (position s =? 0) && dleb p (dsub current_sma (dmul (d_lit 2) std_dev)) then
    (open_position p s, total,
     [Buy sym p current_sma (dmul (d_lit 2) std_dev)])
  else if position s =? 1 then
    let s := hold s in
    let result := dmul (dsub p (entry_price s)) (d_lit 100) in
    if dleb current_sma p then
      (close_position result s, dadd total result, [SellTakeProfit sym p result])
    else if dleb p (dsub (entry_price s) (dmul (d_lit 3) std_dev))
            && (2 <? ticks_held s) then
      (close_position result s, dadd total result, [SellStopLoss sym p result])
    else if 50 <? ticks_held s then
      (close_position result s, dadd total result, [SellTimeStop sym p result])
    else (s, total, [])
  else (s, total, []).

(** The trading rule on one tick of symbol [sym]. *)
Definition trade (sym : string) (p : D) (s : SymbolState) (total : D)
    : SymbolState * D * list (event D) :=
  let s := update_window p s in
  if Z.of_nat (length (prices s)) =? SMA_PERIOD then signals sym p s total
  else (s, total, []).

(** The locals and globals of the subscriber, what it printed, and two
    histories: the ticks handed to the trading rule, and the sequence
    numbers for which a recovery connection was attempted. *)
Record State := {
  expected_seq : Z;
  strategy_state : gmap string SymbolState;
  total_session_pnl : D;
  printed : list (event D);
  delivered : list (TickPacket D);
  attempts : list Z
}.

Definition initial : State :=
  {| expected_seq := 0; strategy_state := ∅; total_session_pnl := d_lit 0;
     printed := []; delivered := []; attempts := [] |}.

Definition print (lines : list (event D)) (st : State) : State :=
  {| expected_seq := expected_seq st; strategy_state := strategy_state st;
     total_session_pnl := total_session_pnl st;
     printed := printed st ++ lines;
     delivered := delivered st; attempts := attempts st |}.

(** What one recovery connection yields: [connect_tcp_client] throws, or
    [recv] returns [bytes_recv] with [recovered_tick] filled in. *)
Inductive tcp_reply :=
  | ConnectFailed
  | Reply (bytes_recv : Z) (recovered_tick : TickPacket D).

(** The retransmit channel: the reply to the [n]-th connection attempt of
    the run, made for sequence number [missed_seq]. *)
Variable tcp : nat → Z → tcp_reply.

(** The body of the recovery loop for one [missed_seq]. *)
Definition recover_one (missed_seq : Z) (st : State) : State :=
  let line :=
    match tcp (length (attempts st)) missed_seq with
    | ConnectFailed => RecoveryConnectionFailed
    | Reply bytes_recv recovered_tick =>
        if bytes_recv =? sizeof_TickPacket
        then Recovered (sequence_num recovered_tick) (price recovered_tick)
        else FailedToRecover missed_seq
    end in
  {| expected_seq := expected_seq st; strategy_state := strategy_state st;
     total_session_pnl := total_session_pnl st;
     printed := printed st ++ [line];
     delivered := delivered st;
     attempts := attempts st ++ [missed_seq] |}.

(** [for (missed_seq = expected_seq; missed_seq < tick.sequence_num;
    ++missed_seq)], with [n] the number of iterations left. *)
Fixpoint recovery_loop (n : nat) (missed_seq : Z) (st : State) : State :=
  match n with
  | O => st
  | S n' => recovery_loop n' (missed_seq + 1) (recover_one missed_seq st)
  end.

(** Gap detection and recovery in front of a received tick. *)
Definition detect_gap (tick : TickPacket D) (st : State) : State :=
  if negb (expected_seq st =? 0) && (expected_seq st <? sequence_num tick) then
    recovery_loop (Z.to_nat (sequence_num tick - expected_seq st))
      (expected_seq st)
      (print [GapDetected (expected_seq st) (sequence_num tick)] st)
  else st.

(** The symbol of a tick as [std::string sym(tick.symbol)] reads it: the
    bytes of the field up to its first NUL.  This is what the constructor
    yields for a field that holds a NUL, as every tick of the publisher
    does; on a field without one it reads on past the tick, and what it
    then yields is not described here. *)
Definition symbol_key (tick : TickPacket D) : string :=
  string_of_list_byte (c_str (symbol tick)).

(** The cursor update and the trading rule on the received tick. *)
Definition consume (tick : TickPacket D) (st : State) : State :=
  let sym := symbol_key tick in
  let s := default new_symbol (strategy_state st !! sym) in
  let '(s, total, lines) := trade sym (price tick) s (total_session_pnl st) in
  {| expected_seq := (sequence_num tick + 1) mod two64;
     strategy_state := <[sym := s]> (strategy_state st);
     total_session_pnl := total;
     printed := printed st ++ lines;
     delivered := delivered st ++ [tick];
     attempts := attempts st |}.

(** The branch [received == sizeof(protocol::TickPacket)].  The latency
    metrics between recovery and the cursor update read the clock and
    print once a second; they touch neither the cursor nor the strategy
    state and are left out. *)
Definition on_tick (tick : TickPacket D) (st : State) : State :=
  consume tick (detect_gap tick st).

(** How a run ends: still in the loop, blocked in [recvfrom], or the
    process has exited with a status. *)
Inductive outcome :=
  | Waiting
  | Exit (code : Z).

(** The mark-to-market line of one symbol and its unrealised profit. *)
Definition mark_to_market (entry : string * SymbolState)
    : option (event D * D) :=
  let '(sym, s) := entry in
  if (position s =? 1) && negb (bool_decide (prices s = [])) then
    let last_inserted_idx :=
      if idx s =? 0 then Z.of_nat (length (prices s)) - 1 else idx s - 1 in
    let current_market_price :=
      default (d_lit 0) (prices s !! Z.to_nat last_inserted_idx) in
    let unrealised_profit :=
      dmul (dsub current_market_price (entry_price s)) (d_lit 100) in
    Some (OpenPosition sym (entry_price s) current_market_price unrealised_profit,
          unrealised_profit)
  else None.

(** [signal_handler]: the report over the strategy map (visited in the
    order of [map_to_list]; the order of an [unordered_map] is not
    specified), then [exit(signum)]. *)
Definition signal_handler (signum : Z) (st : State) : State * outcome :=
  let '(lines, mtm_pnl) :=
    foldl (λ acc entry,
             match mark_to_market entry with
             | Some (line, unrealised) => (acc.1 ++ [line], dadd acc.2 unrealised)
             | None => acc
             end)
          ([ShuttingDown], d_lit 0) (map_to_list (strategy_state st)) in
  (print (lines ++ [FinalReport (total_session_pnl st) mtm_pnl
                      (dadd (total_session_pnl st) mtm_pnl)]) st,
   Exit signum).

(** What happens to the process, in order: [recvfrom] returns [received]
    with [tick] filled in, or the interrupt signal is delivered (taken here
    between two iterations of the loop). *)
Inductive input :=
  | Datagram (received : Z) (tick : TickPacket D)
  | Interrupt.

(** [while (keep_running)]: nothing clears [keep_running], so the loop ends
    by [break] (then [main] returns 0) or inside the signal handler. *)
Fixpoint ingest_loop (inputs : list input) (st : State) : State * outcome :=
  match inputs with
  | [] => (st, Waiting)
  | Datagram received tick :: rest =>
      if received =? sizeof_TickPacket then ingest_loop rest (on_tick tick st)
      else if received <? 0 then (print [UdpReceiveFailed] st, Exit 0)
      else ingest_loop rest st
  | Interrupt :: _ => signal_handler SIGINT st
  end.

(** The inputs after which the loop is still running: datagrams whose
    [recvfrom] did not fail. *)
Definition keeps_running (i : input) : bool :=
  match i with
  | Datagram received _ => 0 <=? received
  | Interrupt => false
  end.

(** The ticks of the 32-byte datagrams that the loop reaches: those in
    front of the first failed receive or interrupt. *)
Fixpoint in_band (inputs : list input) : list (TickPacket D) :=
  match inputs with
  | [] => []
  | Datagram received tick :: rest =>
      if received =? sizeof_TickPacket then tick :: in_band rest
      else if received <? 0 then []
      else in_band rest
  | Interrupt :: _ => []
  end.

(** [main]: [receiver_created] is false when
    [create_udp_multicast_receiver] throws, which the [catch] turns into
    exit status 1.  The two start-up lines ("Starting Trading Simulation
    Engine..." before the [try], "[UDP] Listening on ..." after the
    receiver is created) are not recorded in [printed]. *)
Definition main (receiver_created : bool) (inputs : list input)
    : State * outcome :=
  if receiver_created then ingest_loop inputs initial
  else (print [FatalError] initial, Exit 1).

(** The part of the state the consumer owns, and the cursor. *)
Definition consumer_view (st : State) :=
  (expected_seq st, strategy_state st, total_session_pnl st, delivered st).
End Subscriber.
Arguments SymbolState : clear implicits.
Arguments State : clear implicits.
Arguments tcp_reply : clear implicits.
Arguments input : clear implicits.
End subscriber.

(** ** Concrete runs on binary64 *)

Module scenario.
Import protocol core publisher subscriber binary64 exact.

(** A tick as the publisher builds it for symbol 0 at a whole-dollar price. *)
Definition tick (seq dollars : Z) : TickPacket float :=
  make_tick seq 0 (of_Z dollars) 0.

(** A retransmit channel that answers every request with a full tick. *)
Definition channel : nat → Z → tcp_reply float :=
  λ _ missed_seq, Reply 32 (tick missed_seq 101).

(** Draws that take neither shock branch and do not drop the broadcast. *)
Definition calm (sym : Z) : Draws float :=
  {| sym_dist := sym; price_delta_dist := lit 0.001;
     fundamental_dist := 2; fundamental_depth := lit 0.05;
     anomaly_dist := 2; anomaly_depth := lit 0.02; drop_dist := 2 |}.

Definition tick_input (sym now : Z) : TickInput float :=
  {| draws := calm sym; now_ns := now; sent := 32 |}.

(** The publisher on entering its loop, the ring on zero-filled storage. *)
Definition started : publisher.State float :=
  publisher.initial (replicate (Z.to_nat RING_BUFFER_SIZE) zero_tick)
                    (replicate (Z.to_nat RING_BUFFER_SIZE) 0).

(** Draws in exact arithmetic that take the transient-anomaly branch on
    symbol 0 with depth 2%. *)
Definition anomaly_draws : Draws Qc :=
  {| sym_dist := 0; price_delta_dist := Q2Qc 0.001;
     fundamental_dist := 2; fundamental_depth := Q2Qc 0.05;
     anomaly_dist := 1; anomaly_depth := Q2Qc 0.02; drop_dist := 2 |}.
End scenario.

(** ** Runs of pushes *)

Module history.
Import core.

(** The pushes of the sequence numbers 1, 2, ..., [n] in this order, [item s]
    being pushed for [s]: what a producer that numbers from 1 hands to the
    ring. *)
Definition numbered {T : Type} (item : Z → T) (n : nat) : list (Z * T) :=
  (λ k : nat, (Z.of_nat k, item (Z.of_nat k))) <$> seq 1 n.

(** The item pushed last under sequence number [s], if any. *)
Definition latest {T : Type} (items : list (Z * T)) (s : Z) : option T :=
  snd <$> last (filter (λ p, p.1 = s) items).

(** What slot [i] of a ring built by the pushes [items] on zero-filled
    storage holds: either nothing was pushed into it and it is still zero, or
    it holds a sequence number of this slot with the item pushed last under
    that number. *)
Definition slot_holds {T : Type} (Capacity : Z) (zero : T) (items : list (Z * T))
    (r : RingBuffer T) (i : nat) : Prop :=
  (seq_nums_ r !! i = Some 0 ∧ buffer_ r !! i = Some zero ∧
   Forall (λ p, slot Capacity p.1 ≠ i) items) ∨
  (∃ q u, seq_nums_ r !! i = Some q ∧ buffer_ r !! i = Some u ∧
          slot Capacity q = i ∧ latest items q = Some u).
End history.

(** ** Bytes on the wire *)

Module wire.
Import protocol core publisher.

(** The unsigned integer that a run of bytes holds, least significant byte
    first: what a little-endian host reads from them. *)
Fixpoint le_value (bs : list byte) : Z :=
  match bs with
  | [] => 0
  | b :: rest => Z.of_N (Byte.to_N b) + 256 * le_value rest
  end.

(** [len] bytes of an object at [offset]. *)
Definition field (offset len : nat) (bs : list byte) : list byte :=
  take len (drop offset bs).

(** What [send(tcp_sock, &req, sizeof(req), 0)] writes: the 8 bytes of the
    request. *)
Definition request_bytes (req : RetransmitRequest) : list byte :=
  le_bytes 8 (missed_sequence_num req).

(** What [recv(client_fd, &req, sizeof(req), MSG_WAITALL)] makes of the
    bytes the client wrote before the call returned: [bytes_read], and [req]
    as read from them.  (With fewer than 8 bytes the rest of [req] is
    indeterminate; the server looks at [req] only when 8 bytes were read.) *)
Definition read_request (stream : list byte) : Z * RetransmitRequest :=
  let got := take 8 stream in
  (Z.of_nat (length got), {| missed_sequence_num := le_value got |}).

Section Server.
Context {D : Type} `{!DoubleArith D} `{!DoubleRepr D}.

(** The bytes the retransmission server writes back to a client that wrote
    [stream]. *)
Definition serve (stream : list byte) (ring : RingBuffer (TickPacket D))
    : list byte :=
  (answer_request (read_request stream).1 (read_request stream).2 ring).1.
End Server.
End wire.

(** ** Runs of the publisher *)

Module publisher_runs.
Import protocol core publisher.
Section Runs.
Context {D : Type} `{!DoubleArith D} `{!DoubleRepr D}.

(** The batch loop over a list of tick inputs, first to last. *)
Definition run_ticks (ins : list (TickInput D)) (st : State D) : State D :=
  foldl (λ acc inp, emit_tick inp acc) st ins.

(** The event loop over the ready sources, first to last (the bytes written
    to retransmission clients are not kept). *)
Definition run_events (evs : list (ready D)) (st : State D) : State D :=
  foldl (λ acc ev, (on_ready ev acc).1) st evs.

(** The tick inputs that the tick timers of a run consume: ten per firing. *)
Definition tick_inputs (evs : list (ready D)) : list (TickInput D) :=
  evs ≫= λ ev,
    match ev with
    | MarketTickTimer batch => batch <$> seq 0 10
    | _ => []
    end.

(** What publishing leaves behind: everything but the printed lines and the
    per-second counter. *)
Definition published (st : State D) :=
  (seq_num st, last_sent_tick st, current_prices st, prices_initialised st,
   ring_buffer st, datagrams st).

(** A broadcast that [msgs_sent_this_sec] counts: not dropped, and [sendto]
    returned a positive value. *)
Definition counted (inp : TickInput D) : bool :=
  negb (drop_dist (draws inp) =? 1) && (0 <? sent inp).
End Runs.
End publisher_runs.

(** ** Runs of the subscriber *)

Module subscriber_runs.
Import protocol subscriber.
Section Runs.
Context {D : Type} `{!DoubleArith D} `{!DoubleSqrt D}.

(** The line that the recovery loop prints for [missed_seq] on a reply of
    the retransmit channel. *)
Definition recovery_line (reply : tcp_reply D) (missed_seq : Z) : event D :=
  match reply with
  | ConnectFailed => RecoveryConnectionFailed
  | Reply bytes_recv recovered_tick =>
      if bytes_recv =? sizeof_TickPacket
      then Recovered (sequence_num recovered_tick) (price recovered_tick)
      else FailedToRecover missed_seq
  end.

(** A datagram that the loop passes over: [recvfrom] did not fail, and the
    length is not that of a tick. *)
Definition skipped (i : input D) : bool :=
  match i with
  | Datagram received _ => (0 <=? received) && negb (received =? sizeof_TickPacket)
  | Interrupt => false
  end.

(** The symbol field of the tick holds a NUL, so that
    [std::string sym(tick.symbol)] ends inside the field. *)
Definition terminated (tick : TickPacket D) : Prop := x00 ∈ symbol tick.

(** What holds of every [SymbolState] of a run: the window has at most
    [SMA_PERIOD] prices and its write index is in range, and 0 until the
    window is full; the position is flat or long; an open position has been
    held for at most 50 ticks. *)
Definition symbol_ok (s : SymbolState D) : Prop :=
  Z.of_nat (length (prices s)) ≤ SMA_PERIOD ∧
  0 ≤ idx s < SMA_PERIOD ∧
  (Z.of_nat (length (prices s)) < SMA_PERIOD → idx s = 0) ∧
  (position s = 0 ∨ position s = 1) ∧
  (position s = 1 →
   Z.of_nat (length (prices s)) = SMA_PERIOD ∧ 0 ≤ ticks_held s ≤ 50) ∧
  0 ≤ trades s.

(** The trading rule over the prices of one symbol, first to last, with the
    lines printed on the way. *)
Definition feed (sym : string) (ps : list D)
    (start : SymbolState D * D * list (event D))
    : SymbolState D * D * list (event D) :=
  foldl (λ acc p,
           let '(s, total, lines) := acc in
           let '(s', total', new_lines) := trade sym p s total in
           (s', total', lines ++ new_lines))
        start ps.
End Runs.
End subscriber_runs.

(** ** networking.hpp *)

Module networking.

Inductive sock_type := SOCK_DGRAM | SOCK_STREAM.

(** The socket options the program sets, with the value given. *)
Inductive sockopt :=
  | IP_MULTICAST_TTL (ttl : Z)
  | SO_REUSEPORT (on : Z)
  | SO_REUSEADDR (on : Z)
  | IP_ADD_MEMBERSHIP (group : string).

Inductive in_addr :=
  | INADDR_ANY
  | inet_addr (ip : string).

(** The system calls of the set-up code, with the arguments that matter. *)
Inductive call :=
  | Socket (type : sock_type)
  | Setsockopt (fd : Z) (opt : sockopt)
  | Bind (fd : Z) (addr : in_addr) (port : Z)
  | Listen (fd : Z) (backlog : Z)
  | Connect (fd : Z) (addr : in_addr) (port : Z)
  | FcntlGetfl (fd : Z)
  | FcntlSetfl (fd : Z) (flags : Z)
  | Close (fd : Z)
  | Kqueue
  | KeventAddRead (kq fd : Z)
  | KeventAddTimer (kq timer_id interval_ms : Z).

(** A call returns, or throws [std::runtime_error] with a message. *)
Inductive result (A : Type) :=
  | Returned (a : A)
  | Threw (what : string).
Arguments Returned {A} a.
Arguments Threw {A} what.

(** Code that makes system calls: from the calls made so far to its result
    and the calls made then. *)
Definition sys (A : Type) : Type := list call → result A * list call.

#[export] Instance sys_ret : MRet sys := λ A a made, (Returned a, made).

#[export] Instance sys_bind : MBind sys := λ A B k m made,
  match m made with
  | (Returned a, made') => k a made'
  | (Threw what, made') => (Threw what, made')
  end.

Definition throw {A : Type} (what : string) : sys A := λ made, (Threw what, made).

(** Running code from no call made. *)
Definition run {A : Type} (m : sys A) : result A * list call := m [].

Section Calls.
(** What the system answers to each call, and the flag [O_NONBLOCK] of
    [<fcntl.h>]. *)
Variable os : call → Z.
Variable O_NONBLOCK : Z.

Definition sys_call (c : call) : sys Z := λ made, (Returned (os c), made ++ [c]).

Definition set_non_blocking (fd : Z) : sys unit :=
  flags ← sys_call (FcntlGetfl fd);
  if flags =? -1 then throw "fcntl F_GETFL failed"
  else
    r ← sys_call (FcntlSetfl fd (Z.lor flags O_NONBLOCK));
    if r =? -1 then throw "fcntl F_SETFL nonblock failed" else mret tt.

(** Returns the socket and the address written to [addr_out]. *)
Definition create_udp_multicast_sender (multicast_ip : string) (port : Z)
    : sys (Z * (in_addr * Z)) :=
  sock ← sys_call (Socket SOCK_DGRAM);
  if sock <? 0 then throw "Failed to create UDP socket"
  else
    r ← sys_call (Setsockopt sock (IP_MULTICAST_TTL 1));
    if r <? 0 then
      _ ← sys_call (Close sock); throw "Failed to set IP_MULTICAST_TTL"
    else mret (sock, (inet_addr multicast_ip, port)).

Definition create_udp_multicast_receiver (multicast_ip : string) (port : Z)
    : sys Z :=
  sock ← sys_call (Socket SOCK_DGRAM);
  if sock <? 0 then throw "Failed to create UDP socket"
  else
    r ← sys_call (Setsockopt sock (SO_REUSEPORT 1));
    if r <? 0 then _ ← sys_call (Close sock); throw "Failed to set SO_REUSEPORT"
    else
      r ← sys_call (Bind sock INADDR_ANY port);
      if r <? 0 then _ ← sys_call (Close sock); throw "Failed to bind UDP socket"
      else
        r ← sys_call (Setsockopt sock (IP_ADD_MEMBERSHIP multicast_ip));
        if r <? 0 then
          _ ← sys_call (Close sock); throw "Failed to join multicast group"
        else mret sock.

Definition create_tcp_listener (port : Z) : sys Z :=
  sock ← sys_call (Socket SOCK_STREAM);
  if sock <? 0 then throw "Failed to create TCP socket"
  else
    r ← sys_call (Setsockopt sock (SO_REUSEADDR 1));
    if r <? 0 then _ ← sys_call (Close sock); throw "Failed to set SO_REUSEADDR"
    else
      r ← sys_call (Bind sock INADDR_ANY port);
      if r <? 0 then _ ← sys_call (Close sock); throw "Failed to bind TCP socket"
      else
        r ← sys_call (Listen sock 128);
        if r <? 0 then
          _ ← sys_call (Close sock); throw "Failed to listen on TCP socket"
        else _ ← set_non_blocking sock; mret sock.

Definition connect_tcp_client (ip : string) (port : Z) : sys Z :=
  sock ← sys_call (Socket SOCK_STREAM);
  if sock <? 0 then throw "Failed to create TCP socket"
  else
    r ← sys_call (Connect sock (inet_addr ip) port);
    if r <? 0 then
      _ ← sys_call (Close sock); throw "Failed to connect to TCP server"
    else mret sock.

(** *** event_loop.hpp: construction and registration *)

(** The constructor of [EventLoop]: the kqueue descriptor [kq_]. *)
Definition EventLoop : sys Z :=
  kq ← sys_call Kqueue;
  if kq =? -1 then throw "Failed to create kqueue" else mret kq.

Definition register_read (kq fd : Z) : sys unit :=
  r ← sys_call (KeventAddRead kq fd);
  if r =? -1 then throw "Failed to register read event" else mret tt.

Definition register_timer (kq timer_id interval_ms : Z) : sys unit :=
  r ← sys_call (KeventAddTimer kq timer_id interval_ms);
  if r =? -1 then throw "Failed to register timer event" else mret tt.

(** *** The set-up of the two programs *)

Definition MULTICAST_IP : string := "224.0.0.1".
Definition MULTICAST_PORT : Z := 30001.
Definition PUBLISHER_IP : string := "127.0.0.1".
Definition TCP_PORT : Z := 40001.

(** The set-up of the publisher's [main] up to the event loop: the sender,
    the listener, the event loop and its three registrations.  Returns the
    two sockets and the kqueue descriptor. *)
Definition publisher_setup : sys (Z * Z * Z) :=
  sender ← create_udp_multicast_sender MULTICAST_IP MULTICAST_PORT;
  tcp_sock ← create_tcp_listener TCP_PORT;
  kq ← EventLoop;
  _ ← register_read kq tcp_sock;
  _ ← register_timer kq 1 1;
  _ ← register_timer kq 2 1000;
  mret (sender.1, tcp_sock, kq).

(** The set-up of the subscriber's [main]. *)
Definition subscriber_setup : sys Z :=
  create_udp_multicast_receiver MULTICAST_IP MULTICAST_PORT.

(** The descriptor that [socket] gave is either returned and was not
    closed, or the code threw and, if there was a descriptor, closing it was
    the last call made. *)
Definition tidy {A : Type} (sock : Z) (fd_of : A → Z) (outcome : result A * list call)
    : Prop :=
  match outcome.1 with
  | Returned a => fd_of a = sock ∧ 0 ≤ sock ∧ Close sock ∉ outcome.2
  | Threw _ => sock < 0 ∨ last outcome.2 = Some (Close sock)
  end.
End Calls.
End networking.

(** ** The two programs from set-up to exit *)

Module programs.
Import protocol core publisher publisher_runs subscriber networking.
Section Programs.
Context {D : Type} `{!DoubleArith D} `{!DoubleRepr D} `{!DoubleSqrt D}.
Variable os : call → Z.
Variable O_NONBLOCK : Z.

(** One call of [loop.poll]: [kevent] fails, or it reports ready sources,
    which the handler is given one after the other. *)
Inductive poll :=
  | PollFailed
  | Ready (events : list (ready D)).

(** [while (true) loop.poll(...)]: the state reached and the exit status, if
    the program has exited.  A failed poll throws, which ends [main] with
    status 1. *)
Fixpoint event_loop (polls : list poll) (st : publisher.State D)
    : publisher.State D * option Z :=
  match polls with
  | [] => (st, None)
  | PollFailed :: _ => (st, Some 1)
  | Ready events :: rest => event_loop rest (run_events events st)
  end.

(** The publisher's [main] on ring storage [buffer0], [seq_nums0]. *)
Definition publisher_main (buffer0 : list (TickPacket D)) (seq_nums0 : list Z)
    (polls : list poll) : publisher.State D * option Z :=
  match run (publisher_setup os O_NONBLOCK) with
  | (Returned _, _) => event_loop polls (publisher.initial buffer0 seq_nums0)
  | (Threw _, _) => (publisher.initial buffer0 seq_nums0, Some 1)
  end.

(** The events handled before the first failed poll. *)
Fixpoint handled (polls : list poll) : list (ready D) :=
  match polls with
  | [] => []
  | PollFailed :: _ => []
  | Ready events :: rest => events ++ handled rest
  end.

(** Whether one of the polls fails. *)
Definition some_poll_failed (polls : list poll) : bool :=
  existsb (λ p, match p with PollFailed => true | Ready _ => false end) polls.

(** The subscriber's [main] with its set-up. *)
Definition subscriber_main (tcp : nat → Z → tcp_reply D) (inputs : list (input D))
    : subscriber.State D * outcome :=
  match run (subscriber_setup os) with
  | (Returned _, _) => main tcp true inputs
  | (Threw _, _) => main tcp false inputs
  end.
End Programs.
End programs.

(** ** Further sample inputs *)

Module samples.
Import protocol core publisher subscriber binary64 networking scenario.

(** Draws that drop the broadcast of a tick for symbol 2. *)
Definition dropping : TickInput float :=
  {| draws := {| sym_dist := 2; price_delta_dist := lit 0.001;
                 fundamental_dist := 2; fundamental_depth := lit 0.05;
                 anomaly_dist := 2; anomaly_depth := lit 0.02; drop_dist := 1 |};
     now_ns := 3000; sent := 32 |}.

(** Draws that move symbol 0 down by 0.2 from a price of 1.1. *)
Definition falling : Draws float :=
  {| sym_dist := 0; price_delta_dist := lit (-0.2);
     fundamental_dist := 2; fundamental_depth := lit 0.05;
     anomaly_dist := 2; anomaly_depth := lit 0.02; drop_dist := 2 |}.

(** The state of a symbol that is long from 100 dollars, its window full
    of 100-dollar prices and the write index on the last slot. *)
Definition long_position : SymbolState float :=
  {| prices := replicate 100 (of_Z 100); idx := 99; sum := of_Z 10000;
     position := 1; entry_price := of_Z 100; pnl := lit 0; trades := 0;
     ticks_held := 0 |}.

(** A system where every call succeeds: [socket] returns descriptor 3,
    [kqueue] descriptor 4, [fcntl(F_GETFL)] the flags 2. *)
Definition all_succeed (c : call) : Z :=
  match c with
  | Socket _ => 3
  | Kqueue => 4
  | FcntlGetfl _ => 2
  | _ => 0
  end.

(** What an earlier use of the memory left in slot 5 of the ring arrays. *)
Definition stale_tick : TickPacket float := tick 5 250.

(** The publisher on entering its loop, the ring on storage that is zero
    except for slot 5, which holds [stale_tick] under sequence number 5. *)
Definition leftover : publisher.State float :=
  publisher.initial
    (<[5%nat := stale_tick]> (replicate (Z.to_nat RING_BUFFER_SIZE) zero_tick))
    (<[5%nat := 5]> (replicate (Z.to_nat RING_BUFFER_SIZE) 0)).

(** Draws that take the transient-anomaly branch on symbol 0 with a walk
    step of +0.1% and depth 1.5%. *)
Definition shallow_anomaly : Draws float :=
  {| sym_dist := 0; price_delta_dist := lit 0.001;
     fundamental_dist := 2; fundamental_depth := lit 0.05;
     anomaly_dist := 1; anomaly_depth := lit 0.015; drop_dist := 2 |}.

(** The same system with [fcntl(F_GETFL)] failing. *)
Definition getfl_fails (c : call) : Z :=
  match c with
  | FcntlGetfl _ => -1
  | _ => all_succeed c
  end.
End samples.

(** * Properties *)

(** ** The history ring *)

Module ring_facts.
Import core.
Section Ring.
Context {T : Type}.
Variable Capacity : Z.
Hypothesis Capacity_pos : 0 < Capacity.

Implicit Types (r : RingBuffer T) (s q : Z) (t u : T).

Lemma slot_in_range s : (slot Capacity s < Z.to_nat Capacity)%nat.
Proof.
  unfold slot. pose proof (Z.mod_pos_bound s Capacity Capacity_pos). lia.
Qed.

(** Two sequence numbers less than [Capacity] apart use different slots. *)
Lemma slot_apart s q :
  s < q < s + Capacity → slot Capacity q ≠ slot Capacity s.
Proof.
  intros Hq Heq. unfold slot in Heq.
  pose proof (Z.mod_pos_bound s Capacity Capacity_pos) as Hs.
  pose proof (Z.mod_pos_bound q Capacity Capacity_pos) as Hq'.
  apply Z2Nat.inj in Heq; [|lia..].
  pose proof (Z.div_mod s Capacity ltac:(lia)) as Es.
  pose proof (Z.div_mod q Capacity ltac:(lia)) as Eq.
  assert (q - s = Capacity * (q / Capacity - s / Capacity)) as E by lia.
  generalize dependent (q / Capacity - s / Capacity). intros k E.
  assert (k ≤ 0 ∨ 1 ≤ k) as [Hk|Hk] by lia; nia.
Qed.

Lemma push_well_formed s t r :
  well_formed Capacity r → well_formed Capacity (push Capacity s t r).
Proof.
  intros [Hb Hs]. split; simpl; by rewrite length_insert.
Qed.

Lemma push_all_cons q u items r :
  push_all Capacity ((q, u) :: items) r =
  push_all Capacity items (push Capacity q u r).
Proof. reflexivity. Qed.

Lemma push_all_well_formed items r :
  well_formed Capacity r → well_formed Capacity (push_all Capacity items r).
Proof.
  revert r. induction items as [|[q u] items IH]; intros r Hr; [done|].
  rewrite push_all_cons. apply IH, push_well_formed, Hr.
Qed.

Lemma max_seq_push s t r :
  max_seq_ (push Capacity s t r) = Z.max (max_seq_ r) s.
Proof. simpl. destruct (Z.ltb_spec (max_seq_ r) s); lia. Qed.

(** [max_seq_] never decreases. *)
Lemma max_seq_push_all items r :
  max_seq_ r ≤ max_seq_ (push_all Capacity items r).
Proof.
  revert r. induction items as [|[q u] items IH]; intros r; [done|].
  rewrite push_all_cons. specialize (IH (push Capacity q u r)).
  rewrite max_seq_push in IH. lia.
Qed.

Lemma push_bounded s t r : bounded r → bounded (push Capacity s t r).
Proof.
  unfold bounded. intros Hr. rewrite max_seq_push. cbn [seq_nums_ push].
  apply Forall_insert; [|lia].
  eapply Forall_impl; [exact Hr|]. intros x Hx; simpl in *. lia.
Qed.

Lemma push_all_bounded items r : bounded r → bounded (push_all Capacity items r).
Proof.
  revert r. induction items as [|[q u] items IH]; intros r Hr; [done|].
  rewrite push_all_cons. apply IH, push_bounded, Hr.
Qed.

Lemma zeroed_well_formed (zero : T) : well_formed Capacity (zeroed Capacity zero).
Proof. split; simpl; by rewrite length_replicate. Qed.

Lemma zeroed_bounded (zero : T) : bounded (zeroed Capacity zero).
Proof. unfold bounded; simpl. apply Forall_replicate. lia. Qed.

(** A sequence number above [max_seq_] is not found. *)
Lemma get_above_max s r : bounded r → max_seq_ r < s → get Capacity s r = None.
Proof.
  intros Hb Hs. unfold get.
  destruct (_ && _); [done|].
  destruct (seq_nums_ r !! slot Capacity s) as [recorded|] eqn:E; [|done].
  unfold bounded in Hb. rewrite Forall_lookup in Hb. apply Hb in E.
  destruct (Z.eqb_spec recorded s); [lia|done].
Qed.

Lemma retains_push s t r :
  well_formed Capacity r → max_seq_ r < s + Capacity →
  retains Capacity s t (push Capacity s t r).
Proof.
  intros Hwf Hmax. pose proof (slot_in_range s) as Hi. destruct Hwf as [Hb Hs].
  split; [by apply push_well_formed|]. rewrite max_seq_push.
  split; [lia|]. simpl.
  split; apply list_lookup_insert_eq; lia.
Qed.

Lemma retains_push_other s t q u r :
  s < q < s + Capacity →
  retains Capacity s t r → retains Capacity s t (push Capacity q u r).
Proof.
  intros Hq (Hwf & Hmax & Hseq & Hbuf). pose proof (slot_apart s q Hq) as Hne.
  split; [by apply push_well_formed|]. rewrite max_seq_push.
  split; [lia|]. simpl.
  by rewrite !list_lookup_insert_ne.
Qed.

Lemma retains_get s t r : retains Capacity s t r → get Capacity s r = Some t.
Proof.
  intros (_ & Hmax & Hseq & Hbuf). unfold get.
  destruct (Z.leb_spec Capacity (max_seq_ r)), (Z.leb_spec s (max_seq_ r - Capacity));
    simpl; try lia; rewrite Hseq, Z.eqb_refl; done.
Qed.

Lemma retains_push_all s t later r :
  Forall (λ p, s < p.1 < s + Capacity) later →
  retains Capacity s t r → retains Capacity s t (push_all Capacity later r).
Proof.
  revert r. induction later as [|[q u] later IH]; intros r Hl Hr; [done|].
  apply Forall_cons in Hl as [Hq Hl]. simpl in Hq.
  rewrite push_all_cons. apply IH; [done|]. by apply retains_push_other.
Qed.

(** C10.  On a ring whose storage was zero-filled and that has seen no
    push, [get(0)] succeeds and yields the zero item, while [get(s)] fails
    for every [s >= 1]: the empty ring reports sequence 0 as present. *)
Theorem fresh_ring_reports_seq_zero (zero : T) :
  get Capacity 0 (zeroed Capacity zero) = Some zero ∧
  ∀ s, 1 ≤ s → get Capacity s (zeroed Capacity zero) = None.
Proof.
  split.
  - unfold get, zeroed, construct; simpl.
    destruct (Z.leb_spec Capacity 0); [lia|]. simpl.
    pose proof (slot_in_range 0) as Hi.
    rewrite !lookup_replicate_2 by done. done.
  - intros s Hs. apply get_above_max; [apply zeroed_bounded|simpl; lia].
Qed.

(** A sequence number that is [Capacity] or more below [max_seq_] is not
    found, whatever its slot holds. *)
Lemma get_behind_max s r :
  0 ≤ s → s + Capacity ≤ max_seq_ r → get Capacity s r = None.
Proof.
  intros Hs Hmax. unfold get.
  destruct (Z.leb_spec Capacity (max_seq_ r)), (Z.leb_spec s (max_seq_ r - Capacity));
    simpl; try lia; done.
Qed.

(** C4, amended.  After [push(s, t)] on a ring whose [max_seq_] is below
    [s + Capacity], [get(s)] returns [t] as long as every further push has
    a sequence number strictly between [s] and [s + Capacity].  A single
    push of [s + Capacity] or more, at any time after the push of [s], or a
    [max_seq_] that is already [s + Capacity] or more, makes [get(s)] fail,
    whatever else is pushed. *)
Theorem get_after_push_within_window s t later r :
  (well_formed Capacity r → max_seq_ r < s + Capacity →
   Forall (λ p, s < p.1 < s + Capacity) later →
   get Capacity s (push_all Capacity later (push Capacity s t r)) = Some t) ∧
  (0 ≤ s →
   (∀ q u before,
      s + Capacity ≤ q →
      get Capacity s
        (push_all Capacity later
           (push Capacity q u
              (push_all Capacity before (push Capacity s t r)))) = None) ∧
   (s + Capacity ≤ max_seq_ r →
    get Capacity s (push_all Capacity later (push Capacity s t r)) = None)).
Proof.
  split.
  - intros Hwf Hmax Hlater.
    apply retains_get, retains_push_all, retains_push; done.
  - intros Hs. split.
    + intros q u before Hq. apply get_behind_max; [done|].
      pose proof (max_seq_push_all later
                    (push Capacity q u
                       (push_all Capacity before (push Capacity s t r)))) as Hlater.
      rewrite max_seq_push in Hlater. lia.
    + intros Hmax. apply get_behind_max; [done|].
      pose proof (max_seq_push_all later (push Capacity s t r)) as Hlater.
      rewrite max_seq_push in Hlater. lia.
Qed.
End Ring.
End ring_facts.

(** ** The publisher *)

Module publisher_facts.
Import protocol core publisher ring_facts.

Lemma length_le_bytes n v : length (le_bytes n v) = n.
Proof. revert v. induction n as [|n IH]; intros v; simpl; [done|by rewrite IH]. Qed.

(** The symbol field after [strncpy] into a zeroed 4-byte field with bound 3:
    the first three characters of the text, then NUL up to 4 bytes. *)
Lemma strncpy_into_zeroed_field (text : list byte) :
  strncpy (replicate 4 x00) text (4 - 1) =
  take 3 text ++ replicate (4 - length (take 3 text)) x00.
Proof.
  unfold strncpy.
  destruct text as [|a [|b [|c rest]]]; reflexivity.
Qed.

Section Publisher.
Context {D : Type} `{!DoubleArith D} `{!DoubleRepr D}.

Implicit Types (st : State D) (inp : TickInput D) (t : TickPacket D).

(** Every encoded tick is 32 bytes long. *)
Lemma length_tick_bytes t : length (tick_bytes t) = 32%nat.
Proof.
  unfold tick_bytes. rewrite !length_app, !length_le_bytes, length_resize. done.
Qed.

Lemma emit_tick_ring inp st :
  ring_buffer (emit_tick inp st) =
  push RING_BUFFER_SIZE (seq_num st) (emitted inp st) (ring_buffer st).
Proof. unfold emitted, emit_tick. by destruct (generate_price _ _). Qed.

Lemma emit_tick_seq_num inp st :
  seq_num (emit_tick inp st) = (seq_num st + 1) mod two64.
Proof. unfold emit_tick. by destruct (generate_price _ _). Qed.

Lemma emitted_sequence_num inp st : sequence_num (emitted inp st) = seq_num st.
Proof. unfold emitted, emit_tick. by destruct (generate_price _ _). Qed.

Lemma emitted_symbol inp st :
  symbol (emitted inp st) =
  strncpy (replicate 4 x00) (symbol_text (Z.to_nat (sym_dist (draws inp)))) (4 - 1).
Proof. unfold emitted, emit_tick. by destruct (generate_price _ _). Qed.

(** What [sendto] is given when the broadcast is not dropped. *)
Lemma emit_tick_datagram inp st :
  drop_dist (draws inp) ≠ 1 →
  datagrams (emit_tick inp st) = datagrams st ++ [tick_bytes (emitted inp st)].
Proof.
  intros Hd. unfold emitted, emit_tick. destruct (generate_price _ _). simpl.
  destruct (Z.eqb_spec (drop_dist (draws inp)) 1); done.
Qed.

Lemma RING_BUFFER_SIZE_pos : 0 < RING_BUFFER_SIZE.
Proof. done. Qed.

Lemma initial_in_sequence (zero : TickPacket D) :
  in_sequence (initial (replicate (Z.to_nat RING_BUFFER_SIZE) zero)
                       (replicate (Z.to_nat RING_BUFFER_SIZE) 0)).
Proof.
  split; [apply (zeroed_well_formed RING_BUFFER_SIZE zero)|].
  split; [apply (zeroed_bounded RING_BUFFER_SIZE zero)|]. done.
Qed.

(** The counter after a tick, away from the wrap-around. *)
Ltac next_seq_num := rewrite emit_tick_seq_num, Z.mod_small by lia.

Lemma emit_tick_in_sequence inp st :
  seq_num st + 1 < two64 → in_sequence st → in_sequence (emit_tick inp st).
Proof.
  intros Hw (Hwf & Hb & Hmax & Hseq).
  unfold in_sequence. rewrite emit_tick_ring, max_seq_push. next_seq_num.
  split; [by apply push_well_formed|]. split; [by apply push_bounded|]. lia.
Qed.

Lemma emit_ticks_in_sequence (more : list (TickInput D)) st :
  seq_num st + Z.of_nat (length more) < two64 →
  in_sequence st → in_sequence (foldl (λ acc inp, emit_tick inp acc) st more).
Proof.
  revert st. induction more as [|inp more IH]; intros st Hwrap Hst; [done|].
  rewrite length_cons, Nat2Z.inj_succ in Hwrap. cbn [foldl].
  assert (in_sequence (emit_tick inp st)) as Hnext
    by (apply emit_tick_in_sequence; [lia|done]).
  apply IH; [|done].
  destruct Hst as (_ & _ & _ & Hseq). next_seq_num. lia.
Qed.

(** [in_sequence] holds along the event loop until the counter wraps. *)
Lemma on_ready_in_sequence ev st :
  seq_num st + 10 < two64 → in_sequence st → in_sequence (on_ready ev st).1.
Proof.
  intros Hwrap Hst. destruct ev as [|batch|fd n req]; unfold on_ready; cbn [fst].
  - done.
  - rewrite <- (foldl_fmap (λ acc inp, emit_tick inp acc) st (seq 0 10) batch).
    apply emit_ticks_in_sequence; [|done]. by rewrite length_fmap.
  - destruct (0 <=? fd); [|done]. by destruct (answer_request _ _ _).
Qed.

Lemma on_ready_ring ev st :
  (∀ batch, ev ≠ MarketTickTimer batch) →
  ring_buffer (on_ready ev st).1 = ring_buffer st ∧
  seq_num (on_ready ev st).1 = seq_num st.
Proof.
  intros Hev. destruct ev as [|batch|fd n req]; simpl; [done|by destruct (Hev batch)|].
  destruct (0 <=? fd); [|done]. by destruct (answer_request _ _ _).
Qed.

Lemma response_found s t ring :
  get RING_BUFFER_SIZE s ring = Some t → response 8 s ring = tick_bytes t.
Proof. unfold response, answer_request; simpl. by intros ->. Qed.

Lemma response_not_found s ring :
  get RING_BUFFER_SIZE s ring = None → response 8 s ring = [].
Proof. unfold response, answer_request; simpl. by intros ->. Qed.

(** The ticks of a run of batch iterations keep an earlier tick [s] in the
    ring while they stay inside its window. *)
Lemma retains_emit_ticks s t more st :
  retains RING_BUFFER_SIZE s t (ring_buffer st) →
  0 ≤ s < seq_num st →
  seq_num st + Z.of_nat (length more) ≤ s + RING_BUFFER_SIZE →
  seq_num st + Z.of_nat (length more) < two64 →
  retains RING_BUFFER_SIZE s t
    (ring_buffer (foldl (λ acc inp, emit_tick inp acc) st more)).
Proof.
  revert st. induction more as [|inp more IH]; intros st Hr Hs Hwin Hwrap; [done|].
  cbn [foldl]. rewrite length_cons, Nat2Z.inj_succ in Hwin, Hwrap.
  assert (seq_num (emit_tick inp st) = seq_num st + 1) as Hnext
    by (next_seq_num; lia).
  apply IH; rewrite ?Hnext; [|lia..].
  rewrite emit_tick_ring.
  apply (retains_push_other _ RING_BUFFER_SIZE_pos); [lia|done].
Qed.

(** X28.  The retransmission server writes either nothing or exactly 32
    bytes.  On a ring none of whose slots records a sequence number above
    [max_seq_], as it is on storage that was zero-filled, a request for a
    sequence number above [max_seq_] is answered with 0 bytes.  On any
    storage, while the sequence counter has not wrapped, a request for the
    sequence number [s] of an emitted tick, made when fewer than
    [RING_BUFFER_SIZE] later ticks (the contiguous [s+1], [s+2], ...) have
    been pushed, is answered with the 32 bytes of that tick, which are the
    bytes that were handed to [sendto] for it. *)
Theorem retransmit_response :
  (∀ bytes_read req ring,
     let answer := (answer_request bytes_read req ring).1 in
     length answer = 0%nat ∨ length answer = 32%nat) ∧
  (∀ ring s, bounded ring → max_seq_ ring < s → response 8 s ring = []) ∧
  (∀ st inp more,
     well_formed RING_BUFFER_SIZE (ring_buffer st) →
     max_seq_ (ring_buffer st) = seq_num st - 1 → 1 ≤ seq_num st →
     Z.of_nat (length more) < RING_BUFFER_SIZE →
     seq_num st + 1 + Z.of_nat (length more) < two64 →
     let st1 := emit_tick inp st in
     let st2 := foldl (λ acc inp, emit_tick inp acc) st1 more in
     let answer := response 8 (seq_num st) (ring_buffer st2) in
     answer = tick_bytes (emitted inp st) ∧ length answer = 32%nat ∧
     (drop_dist (draws inp) ≠ 1 → last (datagrams st1) = Some answer)).
Proof.
  split; [|split].
  - intros bytes_read req ring. unfold answer_request.
    destruct (bytes_read =? _); [|by left].
    destruct (get _ _ _); [right; apply length_tick_bytes|by left].
  - intros ring s Hb Hs.
    apply response_not_found, get_above_max; done.
  - intros st inp more Hwf Hmax Hfirst Hlen Hwrap st1 st2 answer.
    assert (answer = tick_bytes (emitted inp st)) as ->.
    { apply response_found, retains_get.
      apply retains_emit_ticks.
      - subst st1. rewrite emit_tick_ring.
        apply (retains_push _ RING_BUFFER_SIZE_pos); [done|].
        pose proof RING_BUFFER_SIZE_pos. lia.
      - subst st1. next_seq_num. lia.
      - subst st1. next_seq_num. lia.
      - subst st1. next_seq_num. lia. }
    split; [done|]. split; [apply length_tick_bytes|].
    intros Hd. subst st1. rewrite emit_tick_datagram by done.
    apply last_snoc.
Qed.

(** C6, amended.  The symbol field of every emitted tick holds the first
    three bytes of the chosen symbol and NUL in the rest of its four bytes:
    a symbol of up to three characters is there in full, right-padded with
    NUL; of a four-character symbol the last character is cut off, and the
    fourth byte of the field is always NUL. *)
Theorem emitted_symbol_field inp st :
  let text := symbol_text (Z.to_nat (sym_dist (draws inp))) in
  let field := symbol (emitted inp st) in
  field = take 3 text ++ replicate (4 - length (take 3 text)) x00 ∧
  length field = 4%nat ∧
  field !! 3%nat = Some x00 ∧
  ((length text ≤ 3)%nat → field = text ++ replicate (4 - length text) x00).
Proof.
  intros text field. subst field. rewrite emitted_symbol.
  fold text. rewrite strncpy_into_zeroed_field.
  destruct text as [|a [|b [|c [|d rest]]]]; simpl; repeat split; try done; lia.
Qed.
End Publisher.

Section Prices.
Context {D : Type} `{!DoubleArith D}.

(** The transient-anomaly branch: the walk state and the published price. *)
Lemma generate_price_anomaly (dr : Draws D) (current_prices : list D) :
  fundamental_dist dr ≠ 1 → anomaly_dist dr = 1 →
  let walked := random_walk dr current_prices in
  let p := price_at walked (Z.to_nat (sym_dist dr)) in
  generate_price dr current_prices = (walked, dsub p (dmul p (anomaly_depth dr))).
Proof.
  intros Hf Ha walked p. unfold generate_price. fold walked. fold p.
  destruct (Z.eqb_spec (fundamental_dist dr) 1); [done|].
  by rewrite Ha.
Qed.

(** C9, amended.  When the fundamental draw is not 1 and the anomaly draw is
    1, the published price is [p - p * d] as the double arithmetic computes
    it, with [p] the price after the random walk and its floor and [d] the
    anomaly depth; the persisted prices are exactly those after the random
    walk, so the price the next tick of that symbol starts from is the
    unshocked [p], and a next tick walks from the same prices as if there
    had been no anomaly. *)
Theorem transient_anomaly_is_not_persisted (dr next : Draws D) (current_prices : list D) :
  fundamental_dist dr ≠ 1 → anomaly_dist dr = 1 →
  let sym_idx := Z.to_nat (sym_dist dr) in
  let walked := random_walk dr current_prices in
  let p := price_at walked sym_idx in
  let d := anomaly_depth dr in
  let result := generate_price dr current_prices in
  result.2 = dsub p (dmul p d) ∧
  result.1 = walked ∧
  price_at result.1 sym_idx = p ∧
  generate_price next result.1 = generate_price next walked.
Proof.
  intros Hf Ha sym_idx walked p d result. subst result.
  rewrite (generate_price_anomaly dr current_prices Hf Ha). done.
Qed.
End Prices.

(** In exact arithmetic the published price of the transient-anomaly branch
    is [p * (1 - d)]. *)
#[local] Existing Instance exact.arith.

Lemma transient_anomaly_in_exact_arithmetic (dr : Draws Qc) (current_prices : list Qc) :
  fundamental_dist dr ≠ 1 → anomaly_dist dr = 1 →
  let p := price_at (random_walk dr current_prices) (Z.to_nat (sym_dist dr)) in
  (generate_price dr current_prices).2 = (p * (1 - anomaly_depth dr))%Qc.
Proof.
  intros Hf Ha p. rewrite (generate_price_anomaly dr current_prices Hf Ha).
  cbn [snd]. fold p. simpl. ring.
Qed.
End publisher_facts.

(** ** The subscriber *)

Module subscriber_facts.
Import protocol subscriber.

Section Subscriber.
Context {D : Type} `{!DoubleArith D} `{!DoubleSqrt D}.
Variable tcp : nat → Z → tcp_reply D.

Implicit Types (st : State D) (tick : TickPacket D) (inputs : list (input D)).

Lemma recover_one_consumer_view m st :
  consumer_view (recover_one tcp m st) = consumer_view st.
Proof. reflexivity. Qed.

Lemma recovery_loop_consumer_view n m st :
  consumer_view (recovery_loop tcp n m st) = consumer_view st.
Proof.
  revert m st. induction n as [|n IH]; intros m st; [done|].
  cbn [recovery_loop]. by rewrite IH, recover_one_consumer_view.
Qed.

(** Whatever the retransmit channel answers, recovery changes only what is
    printed and the list of attempts. *)
Lemma detect_gap_consumer_view tick st :
  consumer_view (detect_gap tcp tick st) = consumer_view st.
Proof.
  unfold detect_gap. destruct (_ && _); [|done].
  by rewrite recovery_loop_consumer_view.
Qed.

Lemma consume_depends_on_consumer_view tick st st' :
  consumer_view st = consumer_view st' →
  consumer_view (consume tick st) = consumer_view (consume tick st').
Proof.
  unfold consumer_view, consume. intros [= He Hs Ht Hd].
  rewrite Hs, Ht, Hd. by destruct (trade _ _ _ _) as [[? ?] ?].
Qed.

(** The consumer sees the received tick and nothing else: its state after
    [on_tick] is its state after [consume] alone. *)
Lemma on_tick_consumer_view tick st :
  consumer_view (on_tick tcp tick st) = consumer_view (consume tick st).
Proof.
  unfold on_tick. apply consume_depends_on_consumer_view, detect_gap_consumer_view.
Qed.

Lemma consume_delivered tick st : delivered (consume tick st) = delivered st ++ [tick].
Proof. unfold consume. by destruct (trade _ _ _ _) as [[? ?] ?]. Qed.

Lemma consume_expected_seq tick st :
  expected_seq (consume tick st) = (sequence_num tick + 1) mod two64.
Proof. unfold consume. by destruct (trade _ _ _ _) as [[? ?] ?]. Qed.

Lemma on_tick_delivered tick st :
  delivered (on_tick tcp tick st) = delivered st ++ [tick].
Proof.
  pose proof (on_tick_consumer_view tick st) as [= _ _ _ ->].
  apply consume_delivered.
Qed.

Lemma on_tick_expected_seq tick st :
  expected_seq (on_tick tcp tick st) = (sequence_num tick + 1) mod two64.
Proof.
  pose proof (on_tick_consumer_view tick st) as [= -> _ _ _].
  apply consume_expected_seq.
Qed.

(** A tick below the cursor starts no recovery: it is consumed like any
    other, and the cursor moves back to its successor. *)
Lemma on_tick_below_cursor tick st :
  sequence_num tick < expected_seq st →
  on_tick tcp tick st = consume tick st.
Proof.
  intros Hlt. unfold on_tick, detect_gap.
  destruct (Z.ltb_spec (expected_seq st) (sequence_num tick)); [lia|].
  by rewrite andb_false_r.
Qed.

Lemma signal_handler_exit signum st :
  (signal_handler signum st).2 = Exit signum ∧
  ∃ realised unrealised total,
    last (printed (signal_handler signum st).1) =
    Some (FinalReport realised unrealised total).
Proof.
  unfold signal_handler. destruct (foldl _ _ _) as [lines mtm_pnl]. simpl.
  split; [done|]. eexists _, _, _. rewrite app_assoc. apply last_snoc.
Qed.

(** The outcomes of the ingest loop. *)
Lemma ingest_loop_outcome inputs st :
  (ingest_loop tcp inputs st).2 = Waiting ∨
  (ingest_loop tcp inputs st).2 = Exit 0 ∨
  (ingest_loop tcp inputs st).2 = Exit SIGINT.
Proof.
  revert st. induction inputs as [|[received tick|] inputs IH]; intros st.
  - by left.
  - cbn [ingest_loop].
    destruct (received =? _); [apply IH|].
    destruct (received <? 0); [by right; left|apply IH].
  - right; right. apply signal_handler_exit.
Qed.

Lemma ingest_loop_until_interrupt before after st :
  forallb keeps_running before = true →
  (ingest_loop tcp (before ++ Interrupt :: after) st).2 = Exit SIGINT ∧
  ∃ realised unrealised total,
    last (printed (ingest_loop tcp (before ++ Interrupt :: after) st).1) =
    Some (FinalReport realised unrealised total).
Proof.
  revert st. induction before as [|[received tick|] before IH]; intros st Hrun.
  - apply signal_handler_exit.
  - cbn [forallb keeps_running] in Hrun. apply andb_true_iff in Hrun as [Hr Hrun].
    cbn [app ingest_loop].
    destruct (received =? _); [by apply IH|].
    destruct (Z.ltb_spec received 0); [|by apply IH].
    apply Z.leb_le in Hr. lia.
  - done.
Qed.

(** The ticks handed to the trading rule are the in-band ticks, in the
    order of arrival, whatever the retransmit channel answers. *)
Lemma ingest_loop_delivered inputs st :
  delivered (ingest_loop tcp inputs st).1 = delivered st ++ in_band inputs.
Proof.
  revert st. induction inputs as [|[received tick|] inputs IH]; intros st.
  - by rewrite app_nil_r.
  - cbn [ingest_loop in_band].
    destruct (received =? _).
    + by rewrite IH, on_tick_delivered, <- app_assoc.
    + destruct (received <? 0); [by rewrite app_nil_r|apply IH].
  - cbn [ingest_loop in_band]. unfold signal_handler.
    destruct (foldl _ _ _). by rewrite app_nil_r.
Qed.

(** C7, amended.  A failed receive on the multicast socket (a negative
    return value) is reported and ends the ingest loop: the state is the one
    reached by the datagrams in front of it plus the line printed, the
    datagrams after it are not processed, and the process ends with
    status 0. *)
Theorem failed_receive_ends_the_loop before received tick rest st :
  forallb keeps_running before = true → received < 0 →
  ingest_loop tcp (before ++ Datagram received tick :: rest) st =
  (print [UdpReceiveFailed] (ingest_loop tcp before st).1, Exit 0).
Proof.
  intros Hrun Hneg. revert st.
  induction before as [|[r t|] before IH]; intros st.
  - cbn [app ingest_loop].
    destruct (Z.eqb_spec received sizeof_TickPacket) as [->|_]; [done|].
    destruct (Z.ltb_spec received 0); [done|lia].
  - cbn [forallb keeps_running] in Hrun. apply andb_true_iff in Hrun as [Hr Hrun].
    apply Z.leb_le in Hr. cbn [app ingest_loop].
    destruct (r =? _); [by apply IH|].
    destruct (Z.ltb_spec r 0); [lia|by apply IH].
  - done.
Qed.

(** C8, amended.  [SIGINT] is 2.  When the interrupt arrives while the loop
    is running, the subscriber prints the mark-to-market report, whose last
    line is the final report, and exits with the signal number as status,
    not 0.  Status 1 is the status of a run exactly when setting up the
    receiver threw. *)
Theorem interrupt_exits_with_signal_number :
  SIGINT = 2 ∧
  (∀ before after,
     forallb keeps_running before = true →
     (main tcp true (before ++ Interrupt :: after)).2 = Exit SIGINT ∧
     ∃ realised unrealised total,
       last (printed (main tcp true (before ++ Interrupt :: after)).1) =
       Some (FinalReport realised unrealised total)) ∧
  (∀ receiver_created inputs,
     (main tcp receiver_created inputs).2 = Exit 1 ↔ receiver_created = false).
Proof.
  split; [done|]. split.
  - intros before after Hrun. by apply ingest_loop_until_interrupt.
  - intros [|] inputs; simpl; [|done].
    destruct (ingest_loop_outcome inputs initial) as [->|[->| ->]]; done.
Qed.
End Subscriber.
End subscriber_facts.

(** ** Concrete runs *)

Module runs.
Import protocol core publisher subscriber binary64 exact scenario.
Import publisher_runs samples.
Import ring_facts publisher_facts subscriber_facts.

(** C1.  Sequences 1 and 3 arrive, 2 is missing, and the retransmit channel
    returns the full tick 2: the recovery is printed, but the trading rule
    is given ticks 1 and 3 only, and the price window of the symbol holds
    the two in-band prices and not the recovered one. *)
Theorem recovered_tick_is_not_delivered :
  let st := (ingest_loop channel
               [Datagram 32 (tick 1 100); Datagram 32 (tick 3 102)] initial).1 in
  printed st = [GapDetected 2 3; Recovered 2 (of_Z 101)] ∧
  attempts st = [2] ∧
  delivered st = [tick 1 100; tick 3 102] ∧
  prices <$> (strategy_state st !! "AAP"%string) = Some [of_Z 100; of_Z 102].
Proof. vm_compute. repeat split; reflexivity. Qed.

(** C2.  Datagrams with sequence numbers 5, 3, 3 arrive in this order: all
    three ticks are handed to the trading rule, in the order of arrival. *)
Theorem deliveries_follow_arrival_order :
  let st := (ingest_loop channel
               [Datagram 32 (tick 5 100); Datagram 32 (tick 3 100);
                Datagram 32 (tick 3 100)] initial).1 in
  sequence_num <$> delivered st = [5; 3; 3].
Proof. vm_compute. reflexivity. Qed.

(** C3.  The subscriber has received sequence 19 and expects 20 when a late
    copy of sequence 7 arrives: the copy is handed to the trading rule and
    the cursor moves back to 8, so that the in-order tick 20 after it is
    announced as a gap from 8 and twelve sequence numbers are requested
    again. *)
Theorem late_duplicate_is_delivered :
  let st19 := (ingest_loop channel [Datagram 32 (tick 19 100)] initial).1 in
  let st7 := (ingest_loop channel [Datagram 32 (tick 7 100)] st19).1 in
  let st20 := (ingest_loop channel [Datagram 32 (tick 20 100)] st7).1 in
  expected_seq st19 = 20 ∧
  delivered st7 = [tick 19 100; tick 7 100] ∧
  expected_seq st7 = 8 ∧
  head (printed st20) = Some (GapDetected 8 20) ∧
  attempts st20 = seqZ 8 12.
Proof. vm_compute. repeat split; reflexivity. Qed.

(** C4, as stated, fails.  One further push, of a sequence number that is
    greater by [RING_BUFFER_SIZE], takes the slot of sequence 1; and a push of
    sequence 5 into a ring that has already seen sequence 20000 is not found
    straight after it. *)
Lemma distant_push_evicts :
  let r := zeroed RING_BUFFER_SIZE (zero_tick (D := float)) in
  let later := [(10001, tick 10001 100)] in
  Forall (λ p, 1 < p.1) later ∧
  Z.of_nat (length later) < RING_BUFFER_SIZE ∧
  get RING_BUFFER_SIZE 1
    (push_all RING_BUFFER_SIZE later (push RING_BUFFER_SIZE 1 (tick 1 100) r)) = None ∧
  get RING_BUFFER_SIZE 5
    (push RING_BUFFER_SIZE 5 (tick 5 100)
       (push RING_BUFFER_SIZE 20000 (tick 20000 100) r)) = None.
Proof.
  split; [repeat constructor|]. split; [done|]. split; vm_compute; reflexivity.
Qed.

(** C4, amended, on the publisher's ring: sequence 1 is still found after
    the pushes of 2 and 10000, the last sequence number of its window; it
    is not found once 10001, the first one behind the window, has been
    pushed; and sequence 5 is not found when it is pushed into a ring whose
    [max_seq_] is 10005 already. *)
Lemma get_after_push_within_window_run :
  let r := zeroed RING_BUFFER_SIZE (zero_tick (D := float)) in
  let later := [(2, tick 2 100); (10000, tick 10000 100)] in
  get RING_BUFFER_SIZE 1
    (push_all RING_BUFFER_SIZE later (push RING_BUFFER_SIZE 1 (tick 1 100) r)) =
    Some (tick 1 100) ∧
  get RING_BUFFER_SIZE 1
    (push_all RING_BUFFER_SIZE later
       (push RING_BUFFER_SIZE 10001 (tick 10001 100)
          (push_all RING_BUFFER_SIZE [] (push RING_BUFFER_SIZE 1 (tick 1 100) r)))) =
    None ∧
  get RING_BUFFER_SIZE 5
    (push_all RING_BUFFER_SIZE later
       (push RING_BUFFER_SIZE 5 (tick 5 100)
          (push RING_BUFFER_SIZE 10005 (tick 10005 100) r))) = None.
Proof.
  intros r later. split; [|split].
  - apply (get_after_push_within_window RING_BUFFER_SIZE RING_BUFFER_SIZE_pos).
    + apply (zeroed_well_formed RING_BUFFER_SIZE).
    + vm_compute. reflexivity.
    + repeat constructor.
  - apply (get_after_push_within_window RING_BUFFER_SIZE RING_BUFFER_SIZE_pos);
      unfold RING_BUFFER_SIZE; lia.
  - apply (get_after_push_within_window RING_BUFFER_SIZE RING_BUFFER_SIZE_pos);
      [lia|vm_compute; discriminate].
Defined.

(** C10 on the publisher's ring. *)
Lemma fresh_ring_reports_seq_zero_run :
  get RING_BUFFER_SIZE 0 (zeroed RING_BUFFER_SIZE (zero_tick (D := float)))
    = Some zero_tick ∧
  get RING_BUFFER_SIZE 1 (zeroed RING_BUFFER_SIZE (zero_tick (D := float))) = None.
Proof.
  destruct (fresh_ring_reports_seq_zero RING_BUFFER_SIZE RING_BUFFER_SIZE_pos
              (zero_tick (D := float))) as [Hzero Hrest].
  split; [exact Hzero|]. apply Hrest. lia.
Defined.


(** X28 on two runs.  On storage with a leftover slot, after two ticks a
    request for sequence 1 is answered with the 32 bytes that were sent for
    it; on zero-filled storage a request for sequence 5 is answered with
    nothing. *)
Lemma retransmit_response_run :
  let st1 := emit_tick (tick_input 0 1000) leftover in
  let st2 := emit_tick (tick_input 1 2000) st1 in
  let zeroed2 :=
    emit_tick (tick_input 1 2000) (emit_tick (tick_input 0 1000) started) in
  response 8 1 (ring_buffer st2) = tick_bytes (emitted (tick_input 0 1000) leftover) ∧
  last (datagrams st1) = Some (response 8 1 (ring_buffer st2)) ∧
  length (response 8 1 (ring_buffer st2)) = 32%nat ∧
  response 8 5 (ring_buffer zeroed2) = [].
Proof.
  destruct (retransmit_response (D := float)) as (_ & Habove & Hfound).
  destruct (Hfound leftover (tick_input 0 1000) [tick_input 1 2000])
    as (Hbytes & Hlen & Hsent); [by vm_compute|done|done|done|done|].
  split; [exact Hbytes|]. split; [by apply Hsent|]. split; [exact Hlen|].
  apply Habove; [|vm_compute; reflexivity].
  assert (in_sequence started) as Hstart by apply initial_in_sequence.
  assert (in_sequence
            (emit_tick (tick_input 1 2000) (emit_tick (tick_input 0 1000) started)))
    as (_ & Hbounded & _); [|exact Hbounded].
  apply emit_tick_in_sequence; [done|]. apply emit_tick_in_sequence; done.
Defined.

(** C6, as stated, fails: the tick for symbol 0, "AAPL", carries "AAP" and
    a NUL. *)
Lemma four_character_symbol_is_cut :
  symbol_text 0 = ["A"; "A"; "P"; "L"]%byte ∧
  symbol (emitted (tick_input 0 1000) started) = ["A"; "A"; "P"; x00]%byte.
Proof. split; vm_compute; reflexivity. Qed.

(** C7, as stated, fails: the 32-byte datagram that follows a failed
    receive is never processed; the process has ended with status 0. *)
Lemma datagram_after_failed_receive_is_lost :
  let run := ingest_loop channel
               [Datagram (-1) (tick 1 100); Datagram 32 (tick 2 100)] initial in
  run.2 = Exit 0 ∧ delivered run.1 = [] ∧ printed run.1 = [UdpReceiveFailed].
Proof. vm_compute. repeat split; reflexivity. Qed.

(** C7, amended, on a run: tick 1 is processed, the receive fails, tick 2
    is not looked at. *)
Lemma failed_receive_ends_the_loop_run :
  ingest_loop channel
    [Datagram 32 (tick 1 100); Datagram (-1) (tick 1 100);
     Datagram 32 (tick 2 100)] initial =
  (print [UdpReceiveFailed]
     (ingest_loop channel [Datagram 32 (tick 1 100)] initial).1, Exit 0).
Proof.
  apply (failed_receive_ends_the_loop channel [Datagram 32 (tick 1 100)]);
    [reflexivity|lia].
Defined.

(** C8, as stated, fails: interrupted after one tick, the subscriber exits
    with status 2, not 0. *)
Lemma interrupt_exit_status_is_two :
  (main channel true [Datagram 32 (tick 1 100); Interrupt]).2 = Exit 2 ∧
  (main channel true [Datagram 32 (tick 1 100); Interrupt]).2 ≠ Exit 0.
Proof. split; [vm_compute; reflexivity|]. vm_compute. discriminate. Qed.

(** C9, as stated, fails on doubles.  From the base prices, with a walk
    step of +0.1% and an anomaly depth of 1.5%, the price after the walk is
    100.1; the code publishes [p - p * d] = 98.5985, while [p * (1 - d)] is
    98.59849999999999, the double just below it. *)
Lemma anomaly_price_is_not_the_product :
  let p := price_at (random_walk shallow_anomaly base_prices) 0 in
  let d := anomaly_depth shallow_anomaly in
  let published := (generate_price shallow_anomaly base_prices).2 in
  fundamental_dist shallow_anomaly = 2 ∧ anomaly_dist shallow_anomaly = 1 ∧
  p = 0x1.9066666666666p+6%float ∧
  published = 0x1.8a64dd2f1a9fcp+6%float ∧
  dmul p (dsub (d_lit 1) d) = 0x1.8a64dd2f1a9fbp+6%float ∧
  dltb (dmul p (dsub (d_lit 1) d)) published = true.
Proof. vm_compute. repeat split; reflexivity. Qed.

(** C9, amended, on the same draws: [p - p * d] is published, the
    persisted prices are the ones after the random walk, and the next tick
    of the symbol is generated from them. *)
Lemma transient_anomaly_run :
  let walked := random_walk shallow_anomaly base_prices in
  let p := price_at walked 0 in
  let result := generate_price shallow_anomaly base_prices in
  result.2 = dsub p (dmul p (anomaly_depth shallow_anomaly)) ∧
  result.1 = walked ∧
  price_at result.1 0 = p ∧
  generate_price (calm 0) result.1 = generate_price (calm 0) walked.
Proof.
  apply (transient_anomaly_is_not_persisted shallow_anomaly (calm 0) base_prices).
  - discriminate.
  - reflexivity.
Defined.

(** In exact arithmetic, from the base prices, the anomaly tick of symbol 0
    is published at [p * (1 - d)]. *)
Example transient_anomaly_exact_run :
  let p := price_at (random_walk anomaly_draws base_prices) 0 in
  (generate_price anomaly_draws base_prices).2 =
    dmul p (dsub (d_lit 1) (anomaly_depth anomaly_draws)).
Proof.
  apply (transient_anomaly_in_exact_arithmetic anomaly_draws base_prices).
  - discriminate.
  - reflexivity.
Qed.

(** The same branch on binary64, from the base prices with a walk step of
    +0.1% and depth 2%: 98.098 is published, 100.1 stays in the walk state,
    and the next walk step of the symbol leads to 100.2001. *)
Example transient_anomaly_on_binary64 :
  let dr := {| sym_dist := 0; price_delta_dist := lit 0.001;
               fundamental_dist := 2; fundamental_depth := lit 0.05;
               anomaly_dist := 1; anomaly_depth := lit 0.02; drop_dist := 2 |} in
  let result := generate_price dr base_prices in
  result.2 = 0x1.88645a1cac083p+6%float ∧
  price_at result.1 0 = 0x1.9066666666666p+6%float ∧
  price_at (random_walk (calm 0) result.1) 0 = 0x1.90cce703afb7ep+6%float.
Proof. vm_compute. repeat split; reflexivity. Qed.
End runs.

(** * Further properties *)

(** ** The history ring under runs of pushes *)

Module ring_runs.
Import core history ring_facts.
Section Ring.
Context {T : Type}.
Variable Capacity : Z.
Hypothesis Capacity_pos : 0 < Capacity.

Implicit Types (r : RingBuffer T) (s q : Z) (t u : T) (items : list (Z * T)).

Lemma push_all_snoc items q u r :
  push_all Capacity (items ++ [(q, u)]) r =
  push Capacity q u (push_all Capacity items r).
Proof. unfold push_all. by rewrite foldl_app. Qed.

Lemma push_all_app items later r :
  push_all Capacity (items ++ later) r =
  push_all Capacity later (push_all Capacity items r).
Proof. unfold push_all. by rewrite foldl_app. Qed.

(** X1.  [max_seq_] after a run of pushes is the greatest of its old value
    and the pushed sequence numbers: a push of a lower sequence number does
    not lower it, and it never decreases. *)
Theorem max_seq_is_the_maximum items r :
  max_seq_ (push_all Capacity items r) = foldl Z.max (max_seq_ r) items.*1 ∧
  max_seq_ r ≤ max_seq_ (push_all Capacity items r).
Proof.
  revert r. induction items as [|[q u] items IH]; intros r; [done|].
  rewrite push_all_cons. destruct (IH (push Capacity q u r)) as [-> Hle].
  rewrite max_seq_push in *. split; [done|]. cbn [fmap list_fmap fst foldl] in *. lia.
Qed.

(** A push into another slot leaves a slot as it was. *)
Lemma push_other_slot q u r (i : nat) :
  slot Capacity q ≠ i →
  seq_nums_ (push Capacity q u r) !! i = seq_nums_ r !! i ∧
  buffer_ (push Capacity q u r) !! i = buffer_ r !! i.
Proof. intros Hne. simpl. by rewrite !list_lookup_insert_ne. Qed.

Lemma push_same_slot q u r :
  well_formed Capacity r →
  seq_nums_ (push Capacity q u r) !! slot Capacity q = Some q ∧
  buffer_ (push Capacity q u r) !! slot Capacity q = Some u.
Proof.
  intros [Hb Hs]. pose proof (slot_in_range Capacity Capacity_pos q). simpl.
  split; apply list_lookup_insert_eq; lia.
Qed.

Lemma latest_snoc_same items q u : latest (items ++ [(q, u)]) q = Some u.
Proof.
  unfold latest. rewrite filter_app, filter_cons_True by done.
  rewrite filter_nil. by rewrite last_snoc.
Qed.

Lemma latest_snoc_other items q u s : q ≠ s → latest (items ++ [(q, u)]) s = latest items s.
Proof.
  intros Hne. unfold latest. rewrite filter_app, filter_cons_False by done.
  by rewrite filter_nil, app_nil_r.
Qed.

Lemma slots_hold (zero : T) items (i : nat) :
  (i < Z.to_nat Capacity)%nat →
  slot_holds Capacity zero items (push_all Capacity items (zeroed Capacity zero)) i.
Proof.
  intros Hi. unfold slot_holds.
  induction items as [|[q u] items IH] using rev_ind.
  - left. simpl. rewrite !lookup_replicate_2 by done. done.
  - rewrite push_all_snoc.
    assert (well_formed Capacity (push_all Capacity items (zeroed Capacity zero))) as Hwf
      by apply push_all_well_formed, zeroed_well_formed.
    destruct (decide (slot Capacity q = i)) as [Heq|Hne].
    + right. exists q, u. subst i.
      destruct (push_same_slot q u _ Hwf) as [-> ->].
      by rewrite latest_snoc_same.
    + destruct (push_other_slot q u (push_all Capacity items (zeroed Capacity zero)) i Hne)
        as [-> ->].
      destruct IH as [(Hs & Hb & Hnone)|(q' & u' & Hs & Hb & Hslot & Hlast)].
      * left. split; [done|]. split; [done|].
        apply Forall_app. split; [done|]. by apply Forall_singleton.
      * right. exists q', u'. repeat split; try done.
        rewrite latest_snoc_other; [done|]. intros ->. done.
Qed.

(** X2.  [get] never returns an item under a wrong sequence number.  On a
    ring built by any run of pushes on zero-filled storage, a successful
    [get(s)] yields the item that was pushed last under [s]; the one
    exception is [get(0)] while nothing has been pushed into slot 0, which
    yields the zero item. *)
Theorem get_returns_the_latest_push (zero : T) items s t :
  get Capacity s (push_all Capacity items (zeroed Capacity zero)) = Some t →
  latest items s = Some t ∨
  (s = 0 ∧ t = zero ∧ Forall (λ p, slot Capacity p.1 ≠ 0%nat) items).
Proof.
  unfold get. destruct (_ && _); [done|].
  pose proof (slots_hold zero items (slot Capacity s)
                (slot_in_range Capacity Capacity_pos s)) as Hslot.
  destruct (seq_nums_ _ !! slot Capacity s) as [recorded|] eqn:Hs; [|done].
  destruct (Z.eqb_spec recorded s) as [->|]; [|done].
  intros Hb.
  destruct Hslot as [(Hs' & Hb' & Hnone)|(q & u & Hs' & Hb' & _ & Hlast)].
  - right. assert (s = 0) as -> by congruence.
    split; [done|]. split; [congruence|].
    replace (slot Capacity 0) with 0%nat in Hnone; [done|].
    unfold slot. by rewrite Z.mod_0_l by lia.
  - left. assert (q = s) as -> by congruence. congruence.
Qed.

(** X3.  Eviction is permanent: once a sequence number at least [Capacity]
    above [s] has been pushed, [get(s)] fails, whatever is pushed
    afterwards, also [s] itself. *)
Theorem get_fails_behind_the_window s q u later r :
  0 ≤ s → s + Capacity ≤ q →
  get Capacity s (push_all Capacity later (push Capacity q u r)) = None.
Proof.
  intros Hs Hq. unfold get.
  pose proof (max_seq_push_all Capacity later (push Capacity q u r)) as Hle.
  rewrite max_seq_push in Hle.
  destruct (Z.leb_spec Capacity (max_seq_ (push_all Capacity later (push Capacity q u r))));
    [|lia].
  destruct (Z.leb_spec s (max_seq_ (push_all Capacity later (push Capacity q u r)) - Capacity));
    [done|lia].
Qed.

Lemma latest_elem items s t : latest items s = Some t → (s, t) ∈ items.
Proof.
  unfold latest. destruct (last _) as [[q u]|] eqn:Hlast; [|done].
  intros [= ->]. apply last_Some_elem_of, list_elem_of_filter in Hlast as [Hq Hin].
  simpl in Hq. by subst q.
Qed.

Lemma numbered_S (item : Z → T) (n : nat) :
  numbered item (S n) = numbered item n ++ [(Z.of_nat (S n), item (Z.of_nat (S n)))].
Proof. unfold numbered. by rewrite seq_S, fmap_app. Qed.

Lemma elem_of_numbered (item : Z → T) (n : nat) q u :
  (q, u) ∈ numbered item n → 1 ≤ q ≤ Z.of_nat n ∧ u = item q.
Proof.
  unfold numbered. intros (k & [= -> ->] & Hk)%list_elem_of_fmap.
  apply elem_of_seq in Hk. split; [lia|done].
Qed.

Lemma max_seq_numbered (zero : T) (item : Z → T) (n : nat) :
  max_seq_ (push_all Capacity (numbered item n) (zeroed Capacity zero)) = Z.of_nat n.
Proof.
  induction n as [|n IH]; [done|].
  rewrite numbered_S, push_all_snoc, max_seq_push, IH. lia.
Qed.

(** The pushes from [s] on, split off the numbered run. *)
Lemma numbered_split (item : Z → T) (n s : nat) :
  (1 ≤ s ≤ n)%nat →
  numbered item n =
  numbered item (s - 1) ++ (Z.of_nat s, item (Z.of_nat s)) ::
  ((λ k : nat, (Z.of_nat k, item (Z.of_nat k))) <$> seq (S s) (n - s)).
Proof.
  intros Hs. unfold numbered.
  replace n with ((s - 1) + S (n - s))%nat at 1 by lia.
  rewrite seq_app, fmap_app. cbn [seq fmap list_fmap].
  by replace (1 + (s - 1))%nat with s by lia.
Qed.

(** X4.  The ring of a producer that numbers from 1: after the pushes of
    1, ..., n on zero-filled storage, [get(s)] succeeds exactly for the last
    [Capacity] sequence numbers, [max(1, n - Capacity + 1) <= s <= n], each
    with its own item, and, as long as [n < Capacity], for [s = 0] with the
    zero item. *)
Theorem ring_holds_the_last_Capacity (zero : T) (item : Z → T) (n : nat) s :
  0 ≤ s →
  get Capacity s (push_all Capacity (numbered item n) (zeroed Capacity zero)) =
  if (1 <=? s) && (s <=? Z.of_nat n) && (Z.of_nat n - Capacity <? s)
  then Some (item s)
  else if (s =? 0) && (Z.of_nat n <? Capacity) then Some zero else None.
Proof.
  intros Hs.
  set (r := push_all Capacity (numbered item n) (zeroed Capacity zero)).
  assert (max_seq_ r = Z.of_nat n) as Hmax by apply max_seq_numbered.
  destruct (Z.leb_spec 1 s) as [H1|H1]; cbn [andb].
  - destruct (Z.leb_spec s (Z.of_nat n)) as [Hn|Hn]; cbn [andb].
    + destruct (Z.ltb_spec (Z.of_nat n - Capacity) s) as [Hw|Hw].
      * (* inside the window *)
        subst r. rewrite (numbered_split item n (Z.to_nat s)) by lia.
        rewrite Z2Nat.id by lia. rewrite push_all_app, push_all_cons.
        apply retains_get, (retains_push_all Capacity Capacity_pos).
        -- apply Forall_fmap, Forall_seq. intros k Hk. simpl. lia.
        -- apply (retains_push Capacity Capacity_pos).
           ++ apply push_all_well_formed, zeroed_well_formed.
           ++ rewrite max_seq_numbered. lia.
      * (* behind the window *)
        destruct (Z.eqb_spec s 0); [lia|]. cbn [andb].
        unfold get. rewrite Hmax.
        destruct (Z.leb_spec Capacity (Z.of_nat n)); [|lia].
        destruct (Z.leb_spec s (Z.of_nat n - Capacity)); [done|lia].
    + (* not yet pushed *)
      destruct (Z.eqb_spec s 0); [lia|]. cbn [andb].
      apply get_above_max; [|lia].
      apply push_all_bounded, (zeroed_bounded Capacity zero).
  - (* sequence number 0 *)
    assert (s = 0) as -> by lia. cbn [Z.eqb andb].
    destruct (Z.ltb_spec (Z.of_nat n) Capacity) as [Hlt|Hge].
    + unfold get. rewrite Hmax.
      destruct (Z.leb_spec Capacity (Z.of_nat n)); [lia|]. cbn [andb].
      assert (slot Capacity 0 = 0%nat) as Hslot0
        by (unfold slot; by rewrite Z.mod_0_l by lia).
      rewrite Hslot0.
      destruct (slots_hold zero (numbered item n) 0%nat ltac:(lia))
        as [(Hseq & Hbuf & _)|(q & u & _ & _ & Hslot & Hlast)].
      * fold r in Hseq, Hbuf. by rewrite Hseq, Hbuf.
      * apply latest_elem, elem_of_numbered in Hlast as [Hq _].
        unfold slot in Hslot. rewrite Z.mod_small in Hslot by lia. lia.
    + unfold get. rewrite Hmax.
      destruct (Z.leb_spec Capacity (Z.of_nat n)); [|lia].
      destruct (Z.leb_spec 0 (Z.of_nat n - Capacity)); [done|lia].
Qed.
End Ring.
End ring_runs.

(** ** Bytes on the wire *)

Module wire_facts.
Import protocol core publisher wire ring_facts publisher_facts.

Lemma byte_of_Z_value z : Z.of_N (Byte.to_N (byte_of_Z z)) = z mod 256.
Proof.
  unfold byte_of_Z. pose proof (Z.mod_pos_bound z 256 ltac:(lia)) as Hz.
  destruct (Byte.of_N (Z.to_N (z mod 256))) as [b|] eqn:Hb.
  - apply Byte.to_of_N in Hb. simpl. rewrite Hb. lia.
  - apply Byte.of_N_None_iff in Hb. lia.
Qed.

Lemma byte_of_Z_to_N (b : byte) k : byte_of_Z (Z.of_N (Byte.to_N b) + 256 * k) = b.
Proof.
  unfold byte_of_Z. pose proof (Byte.to_N_bounded b) as Hb.
  replace ((Z.of_N (Byte.to_N b) + 256 * k) mod 256) with (Z.of_N (Byte.to_N b)).
  - by rewrite N2Z.id, Byte.of_to_N.
  - rewrite (Z.mul_comm 256 k), Z.mod_add by lia.
    symmetry. apply Z.mod_small. lia.
Qed.

Lemma le_value_le_bytes n v : le_value (le_bytes n v) = v mod 256 ^ Z.of_nat n.
Proof.
  revert v. induction n as [|n IH]; intros v.
  - simpl. by rewrite Z.mod_1_r.
  - cbn [le_bytes le_value]. rewrite byte_of_Z_value, IH.
    rewrite Nat2Z.inj_succ, Z.pow_succ_r by lia.
    rewrite Z.rem_mul_r by lia. done.
Qed.

Lemma le_value_range bs : 0 ≤ le_value bs < 256 ^ Z.of_nat (length bs).
Proof.
  induction bs as [|b bs IH]; [simpl; lia|].
  cbn [le_value length]. rewrite Nat2Z.inj_succ, Z.pow_succ_r by lia.
  pose proof (Byte.to_N_bounded b). lia.
Qed.

(** X5.  Little-endian encoding and decoding are inverse to each other:
    the [n] bytes of a value below [256^n] decode to the value, and the bytes
    decoded from any run of bytes encode to that run. *)
Theorem le_round_trip n v bs :
  0 ≤ v < 256 ^ Z.of_nat n →
  le_value (le_bytes n v) = v ∧ le_bytes (length bs) (le_value bs) = bs.
Proof.
  intros Hv. split.
  - rewrite le_value_le_bytes. by apply Z.mod_small.
  - clear. induction bs as [|b bs IH]; [done|].
    cbn [le_value length le_bytes]. rewrite byte_of_Z_to_N. f_equal.
    pose proof (Byte.to_N_bounded b).
    replace ((Z.of_N (Byte.to_N b) + 256 * le_value bs) / 256) with (le_value bs);
      [done|].
    rewrite (Z.mul_comm 256), Z.div_add by lia.
    rewrite Z.div_small; lia.
Qed.

(** A retransmit request survives the stream: the server reads 8 bytes and
    the sequence number the client wrote. *)
Lemma read_request_of_request_bytes m :
  0 ≤ m < two64 →
  read_request (request_bytes {| missed_sequence_num := m |}) =
  (8, {| missed_sequence_num := m |}).
Proof.
  intros Hm. unfold read_request, request_bytes; cbn [missed_sequence_num].
  rewrite take_ge by (rewrite length_le_bytes; lia).
  rewrite length_le_bytes, le_value_le_bytes. f_equal. f_equal.
  apply Z.mod_small. unfold two64 in Hm. simpl. lia.
Qed.

Section Ticks.
Context {D : Type} `{!DoubleArith D} `{!DoubleRepr D}.

(** X6.  A retransmit request survives the stream.  For every 64-bit
    sequence number, the server reads from the 8 bytes the client wrote the
    very request, and answers with what the ring holds for that sequence
    number; a client that wrote fewer than 8 bytes gets no byte back. *)
Theorem serve_stream m stream (ring : RingBuffer (TickPacket D)) :
  0 ≤ m < two64 →
  read_request (request_bytes {| missed_sequence_num := m |}) =
    (8, {| missed_sequence_num := m |}) ∧
  serve (request_bytes {| missed_sequence_num := m |}) ring = response 8 m ring ∧
  ((length stream < 8)%nat → serve stream ring = []).
Proof.
  intros Hm. split; [by apply read_request_of_request_bytes|]. split.
  - unfold serve, response. by rewrite read_request_of_request_bytes.
  - intros Hshort. unfold serve, read_request, answer_request; cbn [fst snd].
    rewrite take_ge by lia.
    destruct (Z.eqb_spec (Z.of_nat (length stream)) sizeof_RetransmitRequest) as [E|_];
      [|done].
    unfold sizeof_RetransmitRequest in E. lia.
Qed.

(** X7.  The layout of a tick on the wire: the sequence number is in bytes
    0 to 7, the timestamp in 8 to 15, the bits of the price in 16 to 23, the
    quantity in 24 to 27 and the symbol in 28 to 31, so that a tick whose
    integers fit their fields is read back from its 32 bytes. *)
Theorem tick_layout (t : TickPacket D) :
  0 ≤ sequence_num t < two64 → 0 ≤ timestamp t < two64 →
  0 ≤ dbits (price t) < two64 → 0 ≤ quantity t < 2 ^ 32 →
  length (symbol t) = 4%nat →
  le_value (field 0 8 (tick_bytes t)) = sequence_num t ∧
  le_value (field 8 8 (tick_bytes t)) = timestamp t ∧
  le_value (field 16 8 (tick_bytes t)) = dbits (price t) ∧
  le_value (field 24 4 (tick_bytes t)) = quantity t ∧
  field 28 4 (tick_bytes t) = symbol t.
Proof.
  intros Hseq Hts Hprice Hqty Hsym. unfold two64 in *.
  unfold field, tick_bytes.
  rewrite (resize_all_alt (symbol t)) by done.
  assert (∀ n v, n = length (le_bytes n v)) as Hlen
    by (intros; by rewrite length_le_bytes).
  repeat split.
  - rewrite drop_0, take_app_length' by apply Hlen.
    rewrite le_value_le_bytes. apply Z.mod_small. simpl; lia.
  - rewrite drop_app_length' by apply Hlen.
    rewrite take_app_length' by apply Hlen.
    rewrite le_value_le_bytes. apply Z.mod_small. simpl; lia.
  - rewrite (app_assoc (le_bytes 8 _) (le_bytes 8 _)).
    rewrite drop_app_length' by (by rewrite length_app, !length_le_bytes).
    rewrite take_app_length' by apply Hlen.
    rewrite le_value_le_bytes. apply Z.mod_small. simpl; lia.
  - rewrite (app_assoc (le_bytes 8 _) (le_bytes 8 _)).
    rewrite (app_assoc _ (le_bytes 8 _)).
    rewrite drop_app_length' by (by rewrite !length_app, !length_le_bytes).
    rewrite take_app_length' by apply Hlen.
    rewrite le_value_le_bytes. apply Z.mod_small. simpl; lia.
  - rewrite (app_assoc (le_bytes 8 _) (le_bytes 8 _)).
    rewrite (app_assoc _ (le_bytes 8 _)).
    rewrite (app_assoc _ (le_bytes 4 _)).
    rewrite drop_app_length' by (by rewrite !length_app, !length_le_bytes).
    by rewrite take_ge by lia.
Qed.
End Ticks.
End wire_facts.

(** ** Runs of the publisher *)

Module publisher_run_facts.
Import protocol core publisher publisher_runs ring_facts publisher_facts.

Section Prices.
Context {D : Type} `{!DoubleArith D}.

Implicit Types (dr : Draws D) (prices : list D).

Lemma length_floor_at_one prices i : length (floor_at_one prices i) = length prices.
Proof. unfold floor_at_one. destruct (dltb _ _); [apply length_insert|done]. Qed.

Lemma floor_at_one_other prices i j :
  i ≠ j → floor_at_one prices i !! j = prices !! j.
Proof.
  intros Hne. unfold floor_at_one.
  destruct (dltb _ _); [by apply list_lookup_insert_ne|done].
Qed.

Lemma floor_at_one_floors prices i :
  dltb (d_lit 1) (d_lit 1) = false → (i < length prices)%nat →
  dltb (price_at (floor_at_one prices i) i) (d_lit 1) = false.
Proof.
  intros Hirr Hi. unfold floor_at_one.
  destruct (dltb (price_at prices i) (d_lit 1)) eqn:Hlt; [|done].
  unfold price_at. by rewrite list_lookup_insert_eq.
Qed.

(** X8.  A tick moves the price of its own symbol only: the price vector
    keeps its length and the price of every other symbol, in all three
    branches of the generator. *)
Theorem generate_price_frame dr prices (j : nat) :
  length (generate_price dr prices).1 = length prices ∧
  (j ≠ Z.to_nat (sym_dist dr) → (generate_price dr prices).1 !! j = prices !! j).
Proof.
  unfold generate_price, random_walk.
  set (i := Z.to_nat (sym_dist dr)).
  destruct (fundamental_dist dr =? 1); [|destruct (anomaly_dist dr =? 1)]; cbn [fst].
  all: split;
    [ repeat (rewrite length_floor_at_one || rewrite length_insert); done
    | intros Hne; assert (i ≠ j) as Hne' by (intros Heq; apply Hne; symmetry; exact Heq);
      repeat first [ rewrite floor_at_one_other by done
                   | rewrite list_lookup_insert_ne by done ]; done ].
Qed.

(** X9.  The floor of the walk: when [1.0 < 1.0] is false, as it is for
    doubles, the persisted price of the symbol of a tick is never below 1.0
    after the tick, and outside the transient-anomaly branch the published
    price is this persisted price. *)
Theorem generate_price_floor dr prices :
  dltb (d_lit 1) (d_lit 1) = false →
  (Z.to_nat (sym_dist dr) < length prices)%nat →
  let sym_idx := Z.to_nat (sym_dist dr) in
  let result := generate_price dr prices in
  dltb (price_at result.1 sym_idx) (d_lit 1) = false ∧
  (fundamental_dist dr = 1 ∨ anomaly_dist dr ≠ 1 →
   result.2 = price_at result.1 sym_idx).
Proof.
  intros Hirr Hi sym_idx result. subst result. unfold generate_price, random_walk.
  fold sym_idx.
  destruct (Z.eqb_spec (fundamental_dist dr) 1) as [Hf|Hf];
    [|destruct (Z.eqb_spec (anomaly_dist dr) 1) as [Ha|Ha]]; cbn [fst snd].
  - split; [|done].
    apply floor_at_one_floors; [done|].
    by rewrite length_insert, length_floor_at_one, length_insert.
  - split; [|intros [?|?]; done].
    apply floor_at_one_floors; [done|]. by rewrite length_insert.
  - split; [|done].
    apply floor_at_one_floors; [done|]. by rewrite length_insert.
Qed.
End Prices.

Section Runs.
Context {D : Type} `{!DoubleArith D} `{!DoubleRepr D}.

Implicit Types (st : State D) (inp : TickInput D) (ins : list (TickInput D)).

Lemma run_ticks_snoc ins inp st :
  run_ticks (ins ++ [inp]) st = emit_tick inp (run_ticks ins st).
Proof. unfold run_ticks. by rewrite foldl_app. Qed.

Lemma run_ticks_app ins more st :
  run_ticks (ins ++ more) st = run_ticks more (run_ticks ins st).
Proof. unfold run_ticks. by rewrite foldl_app. Qed.

(** X10.  Sequence numbers are dense and 1-based: after any [n] ticks,
    dropped or not, the counter is [n + 1], the ring's [max_seq_] is [n], and
    the next tick carries the sequence number [n + 1] and the quantity
    [100 + (n + 1) mod 50], whatever the storage the ring started on. *)
Theorem sequence_numbers_are_dense buffer0 seq_nums0 ins inp :
  Z.of_nat (length ins) + 1 < two64 →
  let st := run_ticks ins (initial buffer0 seq_nums0) in
  seq_num st = Z.of_nat (length ins) + 1 ∧
  max_seq_ (ring_buffer st) = Z.of_nat (length ins) ∧
  sequence_num (emitted inp st) = Z.of_nat (length ins) + 1 ∧
  quantity (emitted inp st) = 100 + (Z.of_nat (length ins) + 1) mod 50.
Proof.
  intros Hwrap st.
  assert (seq_num st = Z.of_nat (length ins) + 1 ∧
          max_seq_ (ring_buffer st) = Z.of_nat (length ins)) as [Hseq Hmax].
  { subst st. induction ins as [|last ins IH] using rev_ind; [done|].
    rewrite length_app, Nat2Z.inj_add in Hwrap |- *. cbn [length] in *.
    destruct IH as [IHseq IHmax]; [lia|].
    rewrite run_ticks_snoc, emit_tick_ring, emit_tick_seq_num, max_seq_push.
    rewrite IHseq, IHmax, Z.mod_small by lia. lia. }
  split; [done|]. split; [done|].
  rewrite emitted_sequence_num. split; [done|].
  unfold emitted, emit_tick. destruct (generate_price _ _). cbn [last_sent_tick quantity make_tick].
  rewrite Hseq. apply Z.mod_small.
  pose proof (Z.mod_pos_bound (Z.of_nat (length ins) + 1) 50 ltac:(lia)). lia.
Qed.

(** X11.  A dropped broadcast is not lost.  In a publisher state whose ring
    arrays have their [RING_BUFFER_SIZE] slots and whose [max_seq_] is the
    last sequence number used, whatever the arrays held when the ring was
    constructed: when the drop draw is 1, nothing is handed to [sendto] and
    the counter of sent messages stays, the drop is printed, and the tick
    is in the ring, so that a retransmit request for its sequence number is
    answered with its 32 bytes. *)
Theorem dropped_tick_is_recoverable inp st :
  well_formed RING_BUFFER_SIZE (ring_buffer st) →
  max_seq_ (ring_buffer st) = seq_num st - 1 →
  drop_dist (draws inp) = 1 →
  let st' := emit_tick inp st in
  datagrams st' = datagrams st ∧
  msgs_sent_this_sec st' = msgs_sent_this_sec st ∧
  printed st' = printed st ++ [DroppedBroadcast (seq_num st)] ∧
  response 8 (seq_num st) (ring_buffer st') = tick_bytes (emitted inp st).
Proof.
  intros Hwf Hmax Hdrop st'.
  assert (response 8 (seq_num st) (ring_buffer st') = tick_bytes (emitted inp st)) as Hresp.
  { apply response_found, retains_get. subst st'. rewrite emit_tick_ring.
    apply (retains_push _ RING_BUFFER_SIZE_pos); [done|].
    pose proof RING_BUFFER_SIZE_pos. lia. }
  split; [|split; [|split; [|exact Hresp]]];
    subst st'; unfold emit_tick; destruct (generate_price _ _); simpl;
    by rewrite Hdrop.
Qed.

(** X12.  [msgs_sent_this_sec] counts exactly the broadcasts that were not
    dropped and for which [sendto] returned a positive value; a failed
    [sendto] is neither counted nor printed. *)
Theorem msgs_sent_counts_positive_sends ins st :
  0 ≤ msgs_sent_this_sec st < two64 →
  msgs_sent_this_sec (run_ticks ins st) =
    (msgs_sent_this_sec st + Z.of_nat (length (filter (λ inp, counted inp = true) ins)))
      mod two64 ∧
  (Forall (λ inp, drop_dist (draws inp) ≠ 1) ins →
   printed (run_ticks ins st) = printed st).
Proof.
  intros Hm. split.
  - induction ins as [|last ins IH] using rev_ind.
    + simpl. rewrite Z.add_0_r. symmetry. by apply Z.mod_small.
    + rewrite run_ticks_snoc, filter_app, length_app, Nat2Z.inj_add.
      unfold emit_tick at 1. destruct (generate_price _ _). cbn [msgs_sent_this_sec].
      rewrite IH. fold (counted last).
      rewrite filter_cons, filter_nil. destruct (counted last) eqn:Hc.
      * rewrite decide_True by done. cbn [length].
        rewrite Zplus_mod_idemp_l. f_equal. lia.
      * rewrite decide_False by done. cbn [length].
        by rewrite Z.add_0_r.
  - intros Hnodrop. induction ins as [|last ins IH] using rev_ind; [done|].
    apply Forall_app in Hnodrop as [Hins Hlast].
    rewrite Forall_singleton in Hlast.
    rewrite run_ticks_snoc. unfold emit_tick at 1. destruct (generate_price _ _).
    cbn [printed]. destruct (Z.eqb_spec (drop_dist (draws last)) 1); [simpl in Hlast; lia|].
    by apply IH.
Qed.

Lemma emit_tick_datagrams_32 inp st :
  Forall (λ d, length d = 32%nat) (datagrams st) →
  Forall (λ d, length d = 32%nat) (datagrams (emit_tick inp st)).
Proof.
  intros Hall. unfold emit_tick. destruct (generate_price _ _). cbn [datagrams].
  destruct (_ =? 1); [done|].
  apply Forall_app. split; [done|]. apply Forall_singleton, length_tick_bytes.
Qed.

Lemma run_ticks_datagrams_32 ins st :
  Forall (λ d, length d = 32%nat) (datagrams st) →
  Forall (λ d, length d = 32%nat) (datagrams (run_ticks ins st)).
Proof.
  revert st. induction ins as [|inp ins IH]; intros st Hall; [done|].
  apply IH, emit_tick_datagrams_32, Hall.
Qed.

Lemma tick_inputs_cons (ev : ready D) evs :
  tick_inputs (ev :: evs) = tick_inputs [ev] ++ tick_inputs evs.
Proof. unfold tick_inputs. cbn [mbind list_bind]. by rewrite app_nil_r. Qed.

Lemma on_ready_published ev st :
  published (on_ready ev st).1 = published (run_ticks (tick_inputs [ev]) st).
Proof.
  destruct ev as [|batch|fd n req]; unfold on_ready; cbn [fst].
  - done.
  - unfold tick_inputs, run_ticks. cbn [mbind list_bind]. rewrite app_nil_r.
    by rewrite foldl_fmap.
  - destruct (0 <=? fd); [|done]. by destruct (answer_request _ _ _).
Qed.

Lemma emit_tick_published inp st st' :
  published st = published st' →
  published (emit_tick inp st) = published (emit_tick inp st').
Proof.
  unfold published. intros [= Hs Hl Hc Hp Hr Hd]. unfold emit_tick.
  rewrite Hs, Hc, Hp, Hr, Hd. by destruct (generate_price _ _).
Qed.

Lemma run_ticks_published ins st st' :
  published st = published st' →
  published (run_ticks ins st) = published (run_ticks ins st').
Proof.
  revert st st'. induction ins as [|inp ins IH]; intros st st' Heq; [done|].
  apply IH, emit_tick_published, Heq.
Qed.

(** X13.  Only the tick timer publishes.  After any sequence of events the
    sequence counter, the last tick, the walk state, the ring and the
    datagrams sent are what the tick inputs of the tick timers alone lead
    to: serving retransmission requests, refused connections and the metrics
    timer never touch them.  Every datagram sent is 32 bytes long. *)
Theorem only_the_tick_timer_publishes evs buffer0 seq_nums0 :
  let st := run_events evs (initial buffer0 seq_nums0) in
  published st = published (run_ticks (tick_inputs evs) (initial buffer0 seq_nums0)) ∧
  Forall (λ d, length d = 32%nat) (datagrams st).
Proof.
  intros st.
  assert (∀ st0, published (run_events evs st0) =
                 published (run_ticks (tick_inputs evs) st0)) as Hpub.
  { induction evs as [|ev evs IH]; intros st0; [done|].
    unfold run_events. cbn [foldl]. fold (run_events evs (on_ready ev st0).1).
    rewrite IH.
    rewrite tick_inputs_cons, run_ticks_app.
    apply run_ticks_published, on_ready_published. }
  split; [apply Hpub|].
  assert (datagrams st =
          datagrams (run_ticks (tick_inputs evs) (initial buffer0 seq_nums0))) as ->.
  { pose proof (Hpub (initial buffer0 seq_nums0)) as Heq. unfold published in Heq.
    by injection Heq. }
  by apply run_ticks_datagrams_32.
Qed.
End Runs.
End publisher_run_facts.

(** ** Runs of the subscriber *)

Module subscriber_run_facts.
Import protocol subscriber subscriber_runs subscriber_facts.

Section Runs.
Context {D : Type} `{!DoubleArith D} `{!DoubleSqrt D}.
Variable tcp : nat → Z → tcp_reply D.

Implicit Types (st : State D) (tick : TickPacket D) (inputs : list (input D)).

Lemma recover_one_trace m st :
  attempts (recover_one tcp m st) = attempts st ++ [m] ∧
  printed (recover_one tcp m st) =
    printed st ++ [recovery_line (tcp (length (attempts st)) m) m].
Proof. split; [done|]. unfold recover_one, recovery_line. by destruct (tcp _ _). Qed.

Lemma recovery_loop_trace (n : nat) m st :
  attempts (recovery_loop tcp n m st) = attempts st ++ seqZ m (Z.of_nat n) ∧
  printed (recovery_loop tcp n m st) =
    printed st ++
    imap (λ (k : nat) m', recovery_line (tcp (length (attempts st) + k)%nat m') m')
         (seqZ m (Z.of_nat n)).
Proof.
  revert m st. induction n as [|n IH]; intros m st.
  - simpl. by rewrite !app_nil_r.
  - cbn [recovery_loop]. destruct (IH (m + 1) (recover_one tcp m st)) as [-> ->].
    destruct (recover_one_trace m st) as [-> ->].
    rewrite (seqZ_cons m (Z.of_nat (S n))) by lia.
    replace (Z.pred (Z.of_nat (S n))) with (Z.of_nat n) by lia.
    rewrite imap_cons, <- !app_assoc. cbn [app]. rewrite Nat.add_0_r.
    split; [done|]. do 2 f_equal.
    apply imap_ext. intros k m' _. simpl. rewrite length_app. cbn [length].
    by replace (length (attempts st) + 1 + k)%nat with (length (attempts st) + S k)%nat
      by lia.
Qed.

(** X14.  Recovery asks for exactly the missing range.  On a gap, one
    connection is attempted for each sequence number from [expected_seq] up
    to the one before the received tick, in ascending order; the gap line
    and then one line per attempt (recovered, failed to recover, or
    connection failed, as the channel answered) are printed, and all of this
    comes before anything the received tick makes the trading rule print. *)
Theorem recovery_requests_the_missing_range tick st :
  expected_seq st ≠ 0 → expected_seq st < sequence_num tick →
  let gap := sequence_num tick - expected_seq st in
  let st' := detect_gap tcp tick st in
  attempts st' = attempts st ++ seqZ (expected_seq st) gap ∧
  printed st' =
    printed st ++ GapDetected (expected_seq st) (sequence_num tick) ::
    imap (λ (k : nat) m, recovery_line (tcp (length (attempts st) + k)%nat m) m)
         (seqZ (expected_seq st) gap) ∧
  ∃ lines, printed (on_tick tcp tick st) = printed st' ++ lines.
Proof.
  intros Hsync Hgap gap st'.
  assert (st' = recovery_loop tcp (Z.to_nat gap) (expected_seq st)
                  (print [GapDetected (expected_seq st) (sequence_num tick)] st)) as Hst'.
  { subst st'. unfold detect_gap.
    destruct (Z.eqb_spec (expected_seq st) 0); [done|].
    destruct (Z.ltb_spec (expected_seq st) (sequence_num tick)); [done|lia]. }
  destruct (recovery_loop_trace (Z.to_nat gap) (expected_seq st)
              (print [GapDetected (expected_seq st) (sequence_num tick)] st))
    as [Ha Hp].
  rewrite <- Hst' in Ha, Hp. rewrite Z2Nat.id in Ha, Hp by (subst gap; lia).
  split; [exact Ha|]. split.
  - rewrite Hp. cbn [print printed attempts]. by rewrite <- app_assoc.
  - unfold on_tick. fold st'. unfold consume.
    destruct (trade _ _ _ _) as [[? ?] lines]. by exists lines.
Qed.

(** X15.  A stream that arrives in order needs no recovery.  When the
    32-byte datagrams carry consecutive sequence numbers, starting anywhere
    for a subscriber that is not yet synchronised ([expected_seq = 0]) or at
    the expected one, the run is the plain consumption of the ticks: no
    connection is attempted and no gap is printed. *)
Theorem in_order_stream_needs_no_recovery (ticks : list (TickPacket D)) s st :
  0 ≤ s → s + Z.of_nat (length ticks) ≤ two64 →
  sequence_num <$> ticks = seqZ s (Z.of_nat (length ticks)) →
  expected_seq st = 0 ∨ expected_seq st = s →
  ingest_loop tcp (Datagram 32 <$> ticks) st =
  (foldl (λ acc t, consume t acc) st ticks, Waiting).
Proof.
  revert s st. induction ticks as [|tick ticks IH]; intros s st Hs Hwrap Hseq Hexp.
  - done.
  - cbn [length] in *. rewrite Nat2Z.inj_succ in *.
    rewrite seqZ_cons in Hseq by lia. cbn [fmap list_fmap] in Hseq.
    injection Hseq as Htick Hrest.
    replace (Z.pred (Z.succ (Z.of_nat (length ticks)))) with (Z.of_nat (length ticks))
      in Hrest by lia.
    cbn [fmap list_fmap ingest_loop foldl]. change (32 =? sizeof_TickPacket) with true.
    cbv iota.
    assert (on_tick tcp tick st = consume tick st) as ->.
    { unfold on_tick, detect_gap. rewrite Htick.
      destruct Hexp as [-> | ->]; [done|]. by rewrite Z.ltb_irrefl, andb_false_r. }
    destruct ticks as [|next ticks']; [done|].
    apply (IH (Z.succ s)); [lia|cbn [length] in *; lia|done|].
    right. rewrite consume_expected_seq, Htick. unfold two64 in *.
    apply Z.mod_small. cbn [length] in Hwrap. lia.
Qed.

Lemma signal_handler_consumer_view signum st :
  consumer_view (signal_handler signum st).1 = consumer_view st.
Proof. unfold signal_handler. by destruct (foldl _ _ _). Qed.

Lemma ingest_loop_expected_seq inputs st :
  expected_seq (ingest_loop tcp inputs st).1 =
  from_option (λ t, (sequence_num t + 1) mod two64) (expected_seq st)
              (last (in_band inputs)).
Proof.
  revert st. induction inputs as [|[received tick|] inputs IH]; intros st.
  - done.
  - cbn [ingest_loop in_band]. destruct (received =? _).
    + rewrite IH, on_tick_expected_seq.
      destruct (in_band inputs) as [|t ts] eqn:Hband; [done|].
      rewrite last_cons_cons.
      destruct (last (t :: ts)) eqn:Hlast; [done|].
      by apply last_None in Hlast.
    + destruct (received <? 0); [done|apply IH].
  - cbn [ingest_loop in_band].
    by pose proof (signal_handler_consumer_view SIGINT st) as [= -> _ _ _].
Qed.

End Runs.

Section Channels.
Context {D : Type} `{!DoubleArith D} `{!DoubleSqrt D}.

Implicit Types (st : State D) (inputs : list (input D)).

(** X16.  The consumer sees the in-band stream and nothing else.  In a
    run where the symbol field of every tick of a 32-byte datagram holds a
    NUL, whatever the retransmit channel answers: the ticks handed to the
    trading rule are the ticks of the 32-byte datagrams in the order of
    arrival, the cursor ends one above the last of them, and the strategy
    state, the realised profit and the way the run ends are the same as for
    any other channel. *)
Theorem consumer_sees_the_in_band_stream (tcp tcp' : nat → Z → tcp_reply D) inputs st :
  Forall terminated (in_band inputs) →
  delivered (ingest_loop tcp inputs st).1 = delivered st ++ in_band inputs ∧
  expected_seq (ingest_loop tcp inputs st).1 =
    from_option (λ t, (sequence_num t + 1) mod two64) (expected_seq st)
                (last (in_band inputs)) ∧
  consumer_view (ingest_loop tcp inputs st).1 =
    consumer_view (ingest_loop tcp' inputs st).1 ∧
  (ingest_loop tcp inputs st).2 = (ingest_loop tcp' inputs st).2.
Proof.
  intros _.
  split; [apply ingest_loop_delivered|]. split; [apply ingest_loop_expected_seq|].
  assert (∀ st st', consumer_view st = consumer_view st' →
            consumer_view (ingest_loop tcp inputs st).1 =
              consumer_view (ingest_loop tcp' inputs st').1 ∧
            (ingest_loop tcp inputs st).2 = (ingest_loop tcp' inputs st').2) as Hboth.
  { induction inputs as [|[received tick|] inputs IH]; intros st1 st2 Hview.
    - done.
    - cbn [ingest_loop]. destruct (received =? _).
      + apply IH. rewrite !on_tick_consumer_view.
        by apply consume_depends_on_consumer_view.
      + destruct (received <? 0); [done|by apply IH].
    - cbn [ingest_loop]. split.
      + by rewrite !signal_handler_consumer_view.
      + by destruct (signal_handler_exit SIGINT st1) as [-> _],
                    (signal_handler_exit SIGINT st2) as [-> _]. }
  by apply Hboth.
Qed.

(** X17.  Datagrams of a wrong length leave no trace: a datagram that was
    received with a length other than 32 changes neither the state nor what
    is printed, so a run is the run without them. *)
Theorem wrong_length_datagrams_are_skipped (tcp : nat → Z → tcp_reply D) inputs st :
  ingest_loop tcp inputs st =
  ingest_loop tcp (filter (λ i, skipped i = false) inputs) st.
Proof.
  revert st. induction inputs as [|[received tick|] inputs IH]; intros st.
  - done.
  - rewrite filter_cons. cbn [skipped ingest_loop].
    destruct (Z.eqb_spec received sizeof_TickPacket) as [->|Hne].
    + rewrite decide_True by done. cbn [ingest_loop].
      change (sizeof_TickPacket =? sizeof_TickPacket) with true. cbv iota. apply IH.
    + destruct (Z.ltb_spec received 0) as [Hneg|Hpos].
      * destruct (Z.leb_spec 0 received); [lia|].
        rewrite decide_True by done. cbn [ingest_loop].
        destruct (Z.eqb_spec received sizeof_TickPacket); [done|].
        destruct (Z.ltb_spec received 0); [done|lia].
      * destruct (Z.leb_spec 0 received); [|lia].
        rewrite decide_False by done. apply IH.
  - rewrite filter_cons. cbn [skipped]. by rewrite decide_True by done.
Qed.
End Channels.
End subscriber_run_facts.

(** ** The trading rule *)

Module trading_facts.
Import protocol subscriber subscriber_runs subscriber_facts.

Section Rule.
Context {D : Type} `{!DoubleArith D} `{!DoubleSqrt D}.

Implicit Types (s : SymbolState D) (p total : D) (sym : string) (st : State D).

Lemma update_window_fields p s :
  position (update_window p s) = position s ∧
  entry_price (update_window p s) = entry_price s ∧
  pnl (update_window p s) = pnl s ∧
  trades (update_window p s) = trades s ∧
  ticks_held (update_window p s) = ticks_held s.
Proof. unfold update_window. by destruct (_ <? _). Qed.

Lemma update_window_ok p s : symbol_ok s → symbol_ok (update_window p s).
Proof.
  unfold symbol_ok, update_window, SMA_PERIOD.
  intros (Hlen & Hidx & Hzero & Hpos & Hheld & Htrades).
  destruct (Z.ltb_spec (Z.of_nat (length (prices s))) 100) as [Hlt|Hge]; simpl.
  - rewrite length_app. cbn [length]. repeat split; try lia.
  - rewrite length_insert.
    pose proof (Z.mod_pos_bound (idx s + 1) 100 ltac:(lia)). repeat split; try lia.
Qed.

Lemma signals_ok sym p s total :
  Z.of_nat (length (prices s)) = SMA_PERIOD →
  symbol_ok s → symbol_ok (signals sym p s total).1.1.
Proof.
  unfold symbol_ok, SMA_PERIOD. intros Hfull (Hlen & Hidx & Hzero & Hpos & Hheld & Htrades).
  unfold signals.
  destruct (_ && _); [simpl; repeat split; lia|].
  destruct (Z.eqb_spec (position s) 1) as [Hlong|]; [|simpl; repeat split; lia].
  destruct (dleb _ p); [simpl; repeat split; lia|].
  destruct (_ && _); [simpl; repeat split; lia|].
  cbn [hold ticks_held].
  destruct (Z.ltb_spec 50 (ticks_held s + 1)); simpl; repeat split; lia.
Qed.

Lemma trade_ok sym p s total : symbol_ok s → symbol_ok (trade sym p s total).1.1.
Proof.
  intros Hs. unfold trade.
  destruct (Z.eqb_spec (Z.of_nat (length (prices (update_window p s)))) SMA_PERIOD).
  - by apply signals_ok, update_window_ok.
  - by apply update_window_ok.
Qed.

Lemma new_symbol_ok : symbol_ok (new_symbol (D := D)).
Proof. unfold symbol_ok, SMA_PERIOD. simpl. repeat split; lia. Qed.

Lemma consume_ok tick st :
  map_Forall (λ _ s, symbol_ok s) (strategy_state st) →
  map_Forall (λ _ s, symbol_ok s) (strategy_state (consume tick st)).
Proof.
  intros Hall. unfold consume.
  destruct (trade _ _ _ _) as [[s' total'] lines] eqn:Htrade. cbn [strategy_state].
  apply map_Forall_insert_2; [|done].
  replace s' with (trade (symbol_key tick) (price tick)
                     (default new_symbol (strategy_state st !! symbol_key tick))
                     (total_session_pnl st)).1.1 by (by rewrite Htrade).
  apply trade_ok.
  destruct (strategy_state st !! symbol_key tick) as [s|] eqn:Hs; simpl.
  - by apply (Hall _ _ Hs).
  - apply new_symbol_ok.
Qed.

(** X18.  The invariant of the strategy map.  In every state a run reaches,
    whatever arrived and whatever the retransmit channel answered, every
    symbol has at most 100 prices in its window with the write index inside
    it (and 0 until the window is full), its position is 0 or 1, a position
    is open only on a full window, and it has been held for at most
    50 ticks. *)
Theorem strategy_state_invariant (tcp : nat → Z → tcp_reply D) inputs :
  map_Forall (λ _ s, symbol_ok s) (strategy_state (ingest_loop tcp inputs initial).1).
Proof.
  assert (∀ st, map_Forall (λ _ s, symbol_ok s) (strategy_state st) →
                map_Forall (λ _ s, symbol_ok s)
                  (strategy_state (ingest_loop tcp inputs st).1)) as Hinv.
  { induction inputs as [|[received tick|] inputs IH]; intros st Hst.
    - done.
    - cbn [ingest_loop]. destruct (received =? _).
      + apply IH.
        pose proof (on_tick_consumer_view tcp tick st) as [= _ -> _ _].
        by apply consume_ok.
      + destruct (received <? 0); [done|by apply IH].
    - cbn [ingest_loop]. unfold signal_handler. by destruct (foldl _ _ _). }
  apply Hinv. apply map_Forall_empty.
Qed.

(** X19.  Warm-up.  The first 99 prices of a symbol are only collected: the
    window holds them in the order of arrival, the running sum is their sum
    as added up from 0.0, no line is printed, no position is opened and the
    realised profit stays as it was. *)
Theorem warm_up_collects_prices sym (ps : list D) total :
  (length ps < 100)%nat →
  feed sym ps (new_symbol, total, []) =
  ({| prices := ps; idx := 0; sum := foldl dadd (d_lit 0) ps; position := 0;
      entry_price := d_lit 0; pnl := d_lit 0; trades := 0; ticks_held := 0 |},
   total, []).
Proof.
  induction ps as [|p ps IH] using rev_ind; intros Hlen; [done|].
  rewrite length_app in Hlen. cbn [length] in Hlen.
  unfold feed in *. rewrite foldl_app, IH by lia. cbn [foldl].
  unfold trade, update_window, SMA_PERIOD. cbn [prices].
  destruct (Z.ltb_spec (Z.of_nat (length ps)) 100); [|lia].
  cbn [prices]. rewrite length_app. cbn [length].
  destruct (Z.eqb_spec (Z.of_nat (length ps + 1)) 100); [lia|].
  by rewrite foldl_app.
Qed.

(** X20.  What a tick can do to a symbol: nothing is printed and the
    position, the trade count and the realised profit stay; or a buy is
    printed, a flat position becomes long at the tick's price with the hold
    counter at 0, and the realised profit stays; or one of the three sells
    is printed, a long position becomes flat, exactly one trade is counted,
    and [(price - entry_price) * 100] is added both to the symbol's [pnl]
    and to [total_session_pnl]. *)
Theorem trade_outcome sym p s total :
  let s' := (trade sym p s total).1.1 in
  let total' := (trade sym p s total).1.2 in
  let lines := (trade sym p s total).2 in
  let result := dmul (dsub p (entry_price s)) (d_lit 100) in
  (lines = [] ∧ total' = total ∧ position s' = position s ∧
   trades s' = trades s ∧ pnl s' = pnl s) ∨
  ((∃ sma band, lines = [Buy sym p sma band]) ∧ total' = total ∧
   position s = 0 ∧ position s' = 1 ∧ entry_price s' = p ∧ ticks_held s' = 0 ∧
   trades s' = trades s ∧ pnl s' = pnl s) ∨
  ((lines = [SellTakeProfit sym p result] ∨ lines = [SellStopLoss sym p result] ∨
    lines = [SellTimeStop sym p result]) ∧
   position s = 1 ∧ position s' = 0 ∧ trades s' = trades s + 1 ∧
   pnl s' = dadd (pnl s) result ∧ total' = dadd total result).
Proof.
  intros s' total' lines result. subst s' total' lines result.
  destruct (update_window_fields p s) as (Hpos & Hentry & Hpnl & Htrades & Hheld).
  unfold trade. destruct (_ =? SMA_PERIOD); [|left; cbn [fst snd]; by repeat split].
  unfold signals. rewrite Hpos.
  destruct (Z.eqb_spec (position s) 0) as [Hflat|Hnot]; cbn [andb].
  - destruct (dleb p _).
    + right; left. cbn [fst snd open_position position entry_price ticks_held trades pnl].
      split; [by eexists _, _|]. by repeat split.
    + rewrite Hflat. cbn [Z.eqb]. left. cbn [fst snd]. rewrite Hflat in Hpos.
      by repeat split.
  - destruct (Z.eqb_spec (position s) 1) as [Hlong|]; [|left; cbn [fst snd]; by repeat split].
    cbn [hold entry_price]. rewrite Hentry.
    destruct (dleb _ p);
      [right; right; cbn [fst snd close_position hold position trades pnl];
       rewrite ?Hpnl, ?Htrades; by auto 10|].
    destruct (_ && _);
      [right; right; cbn [fst snd close_position hold position trades pnl];
       rewrite ?Hpnl, ?Htrades; by auto 10|].
    destruct (50 <? _);
      [right; right; cbn [fst snd close_position hold position trades pnl];
       rewrite ?Hpnl, ?Htrades; by auto 10|].
    left. cbn [fst snd hold position trades pnl]. by repeat split.
Qed.

(** X21.  An open position is marked at the latest price.  After a tick of
    a symbol whose position is open, the mark-to-market line of the symbol
    uses the price of this tick as the current market price, whether the
    window was just filled or a slot was overwritten, also when the write
    index has wrapped to 0. *)
Theorem open_position_is_marked_at_the_latest_price sym p s total :
  symbol_ok s →
  let s' := (trade sym p s total).1.1 in
  position s' = 1 →
  mark_to_market (sym, s') =
  Some (OpenPosition sym (entry_price s') p
          (dmul (dsub p (entry_price s')) (d_lit 100)),
        dmul (dsub p (entry_price s')) (d_lit 100)).
Proof.
  intros Hs s' Hlong.
  pose proof (trade_ok sym p s total Hs) as Hs'. fold s' in Hs'.
  assert (prices s' = prices (update_window p s) ∧ idx s' = idx (update_window p s))
    as [Hprices Hidx].
  { subst s'. unfold trade. destruct (_ =? SMA_PERIOD); [|done].
    unfold signals. destruct (_ && _); [done|]. destruct (_ =? 1); [|done].
    destruct (dleb _ p); [done|]. destruct (_ && _); [done|]. by destruct (50 <? _). }
  destruct Hs' as (_ & _ & _ & _ & Hfull & _). destruct (Hfull Hlong) as [Hlen _].
  destruct Hs as (Hlen0 & Hidx0 & Hzero & _).
  unfold SMA_PERIOD in *.
  assert (prices s' !!
            Z.to_nat (if idx s' =? 0 then Z.of_nat (length (prices s')) - 1
                      else idx s' - 1) = Some p) as Hlook.
  { rewrite Hidx, Hprices in *. unfold update_window, SMA_PERIOD in *.
    destruct (Z.ltb_spec (Z.of_nat (length (prices s))) 100) as [Hlt|Hge];
      cbn [prices idx] in *.
    - rewrite Hzero by done. cbn [Z.eqb]. rewrite length_app in *. cbn [length] in *.
      replace (Z.to_nat (Z.of_nat (length (prices s) + 1) - 1)) with (length (prices s))
        by lia.
      by rewrite lookup_app_r, Nat.sub_diag by lia.
    - rewrite length_insert in *.
      destruct (Z.eqb_spec ((idx s + 1) mod 100) 0) as [Hwrap|Hwrap].
      + assert (idx s = 99) as Hi.
        { destruct (Z.eq_dec (idx s) 99); [done|].
          rewrite Z.mod_small in Hwrap by lia. lia. }
        rewrite Hi. replace (Z.to_nat (Z.of_nat (length (prices s)) - 1)) with 99%nat
          by lia.
        change (Z.to_nat 99) with 99%nat. apply list_lookup_insert_eq. lia.
      + assert (idx s ≠ 99) as Hi by (intros Hi; by rewrite Hi in Hwrap).
        rewrite Z.mod_small by lia.
        replace (Z.to_nat (idx s + 1 - 1)) with (Z.to_nat (idx s)) by lia.
        apply list_lookup_insert_eq. lia. }
  unfold mark_to_market. rewrite Hlong. cbn [Z.eqb andb].
  destruct (prices s') as [|q qs] eqn:Hq; [simpl in Hlen; lia|].
  rewrite bool_decide_eq_false_2 by done. cbn [negb]. by rewrite Hlook.
Qed.

(** X22.  The report without open positions.  When no symbol has an open
    position, in particular when no tick has been received at all, the
    interrupt handler prints the header and the final report with an
    unrealised profit of 0.0, touches nothing else, and exits with the
    signal number. *)
Theorem report_without_open_positions signum st :
  map_Forall (λ _ s, position s ≠ 1) (strategy_state st) →
  signal_handler signum st =
  (print [ShuttingDown;
          FinalReport (total_session_pnl st) (d_lit 0)
            (dadd (total_session_pnl st) (d_lit 0))] st,
   Exit signum).
Proof.
  intros Hflat. apply map_Forall_to_list in Hflat. unfold signal_handler.
  assert (∀ acc : list (event D) * D,
            foldl (λ acc entry,
                     match mark_to_market entry with
                     | Some (line, unrealised) =>
                         (acc.1 ++ [line], dadd acc.2 unrealised)
                     | None => acc
                     end) acc (map_to_list (strategy_state st)) = acc) as ->; [|done].
  induction (map_to_list (strategy_state st)) as [|[sym s] entries IH]; intros acc.
  - done.
  - apply Forall_cons in Hflat as [Hs Hrest]. cbn [foldl uncurry] in *.
    assert (mark_to_market (sym, s) = None) as ->.
    { unfold mark_to_market. by destruct (Z.eqb_spec (position s) 1). }
    by apply IH.
Qed.
End Rule.
End trading_facts.

(** ** Set-up and exit *)

Module setup_facts.
Import networking.

(** Unfolds code in [sys] into the calls it makes. *)
Ltac run_sys :=
  unfold run, mbind, sys_bind, sys_call, throw, mret, sys_ret; cbn [app fst snd].

(** No [Close] among the calls listed. *)
Ltac not_closed :=
  rewrite !elem_of_cons, elem_of_nil; intuition discriminate.

Section Calls.
Variable os : call → Z.
Variable O_NONBLOCK : Z.

(** X23.  No descriptor is lost on the way to a sender, a receiver or a
    client connection.  Each of the three either returns the descriptor that
    [socket] gave, without having closed it, or throws; and when it throws
    after [socket] had succeeded, closing the descriptor was the last call
    it made. *)
Theorem creators_close_on_failure ip port :
  tidy (os (Socket SOCK_DGRAM)) fst (run (create_udp_multicast_sender os ip port)) ∧
  tidy (os (Socket SOCK_DGRAM)) id (run (create_udp_multicast_receiver os ip port)) ∧
  tidy (os (Socket SOCK_STREAM)) id (run (connect_tcp_client os ip port)).
Proof.
  unfold tidy, create_udp_multicast_sender, create_udp_multicast_receiver,
    connect_tcp_client.
  repeat split; run_sys;
    repeat match goal with
           | |- context [?a <? 0] => destruct (Z.ltb_spec a 0); cbn [app fst snd]
           end;
    try (by left); try (by right);
    (split; [done|split; [lia|]]); not_closed.
Qed.

(** X24.  The receiver is returned exactly when all four calls succeed, and
    then the calls were, in this order: [socket], [SO_REUSEPORT], [bind] to
    any address on the port, and joining the multicast group. *)
Theorem receiver_is_created_when_all_calls_succeed ip port :
  let sock := os (Socket SOCK_DGRAM) in
  let outcome := run (create_udp_multicast_receiver os ip port) in
  (outcome.1 = Returned sock ↔
   0 ≤ sock ∧ 0 ≤ os (Setsockopt sock (SO_REUSEPORT 1)) ∧
   0 ≤ os (Bind sock INADDR_ANY port) ∧
   0 ≤ os (Setsockopt sock (IP_ADD_MEMBERSHIP ip))) ∧
  (outcome.1 = Returned sock →
   outcome.2 = [Socket SOCK_DGRAM; Setsockopt sock (SO_REUSEPORT 1);
                Bind sock INADDR_ANY port;
                Setsockopt sock (IP_ADD_MEMBERSHIP ip)]).
Proof.
  intros sock outcome. subst outcome. unfold create_udp_multicast_receiver.
  run_sys. fold sock.
  repeat match goal with
         | |- context [?a <? 0] => destruct (Z.ltb_spec a 0); cbn [app fst snd]
         end;
    (split; [split; [try done; intros; lia|try done; intros; lia]|try done]).
Qed.

(** X25.  The listener: when [socket], [SO_REUSEADDR], [bind] and [listen]
    succeed, the listener is returned exactly when both [fcntl] calls
    succeed, with [O_NONBLOCK] or-ed into the flags that were read; and when
    an [fcntl] call fails, the code throws without closing the descriptor,
    which stays open. *)
Theorem listener_and_non_blocking port :
  let sock := os (Socket SOCK_STREAM) in
  let flags := os (FcntlGetfl sock) in
  let outcome := run (create_tcp_listener os O_NONBLOCK port) in
  0 ≤ sock → 0 ≤ os (Setsockopt sock (SO_REUSEADDR 1)) →
  0 ≤ os (Bind sock INADDR_ANY port) → 0 ≤ os (Listen sock 128) →
  (flags ≠ -1 ∧ os (FcntlSetfl sock (Z.lor flags O_NONBLOCK)) ≠ -1 →
   outcome.1 = Returned sock ∧
   last outcome.2 = Some (FcntlSetfl sock (Z.lor flags O_NONBLOCK))) ∧
  (flags = -1 ∨ os (FcntlSetfl sock (Z.lor flags O_NONBLOCK)) = -1 →
   (outcome.1 = Threw "fcntl F_GETFL failed" ∨
    outcome.1 = Threw "fcntl F_SETFL nonblock failed") ∧
   Close sock ∉ outcome.2).
Proof.
  intros sock flags outcome Hsock Hopt Hbind Hlisten. subst outcome.
  unfold create_tcp_listener, set_non_blocking. run_sys. fold sock.
  destruct (Z.ltb_spec sock 0); [lia|]. cbn [app fst snd].
  destruct (Z.ltb_spec (os (Setsockopt sock (SO_REUSEADDR 1))) 0); [lia|].
  cbn [app fst snd].
  destruct (Z.ltb_spec (os (Bind sock INADDR_ANY port)) 0); [lia|]. cbn [app fst snd].
  destruct (Z.ltb_spec (os (Listen sock 128)) 0); [lia|]. cbn [app fst snd].
  fold flags.
  destruct (Z.eqb_spec flags (-1)) as [Hget|Hget]; cbn [app fst snd].
  - split; [intros [? _]; done|]. intros _. split; [by left|]. not_closed.
  - destruct (Z.eqb_spec (os (FcntlSetfl sock (Z.lor flags O_NONBLOCK))) (-1))
      as [Hset|Hset]; cbn [app fst snd].
    + split; [intros [_ ?]; done|]. intros _. split; [by right|]. not_closed.
    + split; [done|]. intros [?|?]; done.
Qed.
End Calls.
End setup_facts.

(** ** The programs from set-up to exit *)

Module program_facts.
Import protocol core publisher publisher_runs subscriber networking programs.
Import setup_facts.

Section Programs.
Context {D : Type} `{!DoubleArith D} `{!DoubleRepr D} `{!DoubleSqrt D}.
Variable os : call → Z.
Variable O_NONBLOCK : Z.

Lemma event_loop_handled (polls : list (poll (D := D))) st :
  event_loop polls st =
  (run_events (handled polls) st, if some_poll_failed polls then Some 1 else None).
Proof.
  revert st. induction polls as [|[|events] polls IH]; intros st.
  - done.
  - done.
  - cbn [event_loop handled some_poll_failed existsb orb]. rewrite IH.
    unfold run_events. by rewrite foldl_app.
Qed.

(** X26.  The publisher never exits with status 0.  It exits, with status
    1, exactly when the set-up throws or a poll fails; until then it has
    handled the events of the polls before the failed one, in order, and
    nothing after it. *)
Theorem publisher_exits_only_on_failure buffer0 seq_nums0 (polls : list poll) :
  let outcome := publisher_main os O_NONBLOCK buffer0 seq_nums0 polls in
  let started := publisher.initial (D := D) buffer0 seq_nums0 in
  (outcome.2 = None ∨ outcome.2 = Some 1) ∧
  ((∃ fds, (run (publisher_setup os O_NONBLOCK)).1 = Returned fds) →
   outcome = (run_events (handled polls) started,
              if some_poll_failed polls then Some 1 else None)) ∧
  ((∃ what, (run (publisher_setup os O_NONBLOCK)).1 = Threw what) →
   outcome = (started, Some 1)).
Proof.
  intros outcome started. subst outcome. unfold publisher_main.
  destruct (run (publisher_setup os O_NONBLOCK)) as [[fds|what] made]; cbn [fst].
  - rewrite event_loop_handled. split; [|split; [done|]].
    + cbn [snd]. destruct (some_poll_failed polls); auto.
    + intros [? ?]. done.
  - split; [by right|]. split; [|done]. intros [? ?]. done.
Qed.

(** X27.  The subscriber exits with status 1 exactly when one of the four
    calls that create the receiver fails, and then it has not looked at any
    datagram, has made no recovery attempt, and the fatal error is the last
    line it printed. *)
Theorem subscriber_exits_with_1_when_setup_fails
    (tcp : nat → Z → tcp_reply D) (inputs : list (input D)) :
  let sock := os (Socket SOCK_DGRAM) in
  let outcome := subscriber_main os tcp inputs in
  (outcome.2 = Exit 1 ↔
   sock < 0 ∨ os (Setsockopt sock (SO_REUSEPORT 1)) < 0 ∨
   os (Bind sock INADDR_ANY MULTICAST_PORT) < 0 ∨
   os (Setsockopt sock (IP_ADD_MEMBERSHIP MULTICAST_IP)) < 0) ∧
  (outcome.2 = Exit 1 →
   delivered outcome.1 = [] ∧ attempts outcome.1 = [] ∧
   strategy_state outcome.1 = ∅ ∧
   last (printed outcome.1) = Some FatalError).
Proof.
  intros sock outcome. subst outcome. unfold subscriber_main, subscriber_setup.
  pose proof (subscriber_facts.ingest_loop_outcome tcp inputs initial) as Hloop.
  assert (∀ st : subscriber.State D * outcome,
            st = main tcp true inputs → st.2 ≠ Exit 1) as Hrun.
  { intros st ->. unfold main. destruct Hloop as [->|[->| ->]]; done. }
  unfold create_udp_multicast_receiver. run_sys. fold sock.
  repeat match goal with
         | |- context [?a <? 0] => destruct (Z.ltb_spec a 0); cbn [app fst snd]
         end.
  all: try (split; [split; [intros _; lia|done]|done]).
  specialize (Hrun _ eq_refl).
  split; [split; [done|lia]|done].
Qed.
End Programs.
End program_facts.

(** ** The further properties on concrete runs *)

Module more_runs.
Import protocol core publisher subscriber binary64 networking scenario.
Import history wire publisher_runs subscriber_runs programs samples.
Import publisher_facts.

(** X2 on a run: sequence numbers 1 and 10001 share slot 1; the ring
    returns for 10001 the item pushed last under it. *)
Lemma get_returns_the_latest_push_run :
  let items := [(1, tick 1 100); (10001, tick 10001 101); (2, tick 2 102)] in
  get RING_BUFFER_SIZE 10001
    (push_all RING_BUFFER_SIZE items (zeroed RING_BUFFER_SIZE zero_tick)) =
    Some (tick 10001 101) ∧
  (latest items 10001 = Some (tick 10001 101) ∨
   10001 = 0 ∧ tick 10001 101 = zero_tick ∧
   Forall (λ p, slot RING_BUFFER_SIZE p.1 ≠ 0%nat) items).
Proof.
  assert (get RING_BUFFER_SIZE 10001
            (push_all RING_BUFFER_SIZE
               [(1, tick 1 100); (10001, tick 10001 101); (2, tick 2 102)]
               (zeroed RING_BUFFER_SIZE zero_tick)) = Some (tick 10001 101)) as Hget
    by (vm_compute; reflexivity).
  split; [exact Hget|].
  exact (ring_runs.get_returns_the_latest_push RING_BUFFER_SIZE
           RING_BUFFER_SIZE_pos zero_tick _ 10001 _ Hget).
Defined.

(** X3 on a run: after sequence 10001 was pushed, sequence 1 is gone and
    stays gone when sequence 2 is pushed. *)
Lemma get_fails_behind_the_window_run :
  get RING_BUFFER_SIZE 1
    (push_all RING_BUFFER_SIZE [(2, tick 2 102)]
       (push RING_BUFFER_SIZE 10001 (tick 10001 101)
          (push RING_BUFFER_SIZE 1 (tick 1 100)
             (zeroed RING_BUFFER_SIZE zero_tick)))) = None.
Proof.
  apply ring_runs.get_fails_behind_the_window; unfold RING_BUFFER_SIZE; lia.
Defined.

(** X4 on a run: of the sequence numbers 1 to 10002 pushed in order, the
    ring still finds 3 and no longer finds 2. *)
Lemma ring_holds_the_last_Capacity_run :
  let ring := push_all RING_BUFFER_SIZE (numbered (λ s, tick s 100) (Z.to_nat 10002))
                (zeroed RING_BUFFER_SIZE zero_tick) in
  get RING_BUFFER_SIZE 3 ring = Some (tick 3 100) ∧
  get RING_BUFFER_SIZE 2 ring = None.
Proof.
  split.
  - exact (ring_runs.ring_holds_the_last_Capacity RING_BUFFER_SIZE
             RING_BUFFER_SIZE_pos zero_tick (λ s, tick s 100) (Z.to_nat 10002) 3
             ltac:(lia)).
  - exact (ring_runs.ring_holds_the_last_Capacity RING_BUFFER_SIZE
             RING_BUFFER_SIZE_pos zero_tick (λ s, tick s 100) (Z.to_nat 10002) 2
             ltac:(lia)).
Defined.

(** X5 on a value: 258 in 8 bytes, and the bytes 01 02 as a number. *)
Lemma le_round_trip_run :
  le_value (le_bytes 8 258) = 258 ∧
  le_bytes (length [x01; x02]) (le_value [x01; x02]) =
    [x01; x02].
Proof.
  apply (wire_facts.le_round_trip 8 258). simpl. lia.
Defined.

(** X6 on a run: the request for sequence 1 sent over the stream is
    answered from the ring, a single byte is not. *)
Lemma serve_stream_run :
  let ring := ring_buffer (emit_tick (tick_input 0 1000) started) in
  read_request (request_bytes {| missed_sequence_num := 1 |}) =
    (8, {| missed_sequence_num := 1 |}) ∧
  serve (request_bytes {| missed_sequence_num := 1 |}) ring = response 8 1 ring ∧
  ((length [x01] < 8)%nat → serve [x01] ring = []).
Proof.
  apply (wire_facts.serve_stream (D := float) 1). unfold two64. lia.
Defined.

(** X7 on the first tick of a run. *)
Lemma tick_layout_run :
  let t := emitted (tick_input 0 1000) started in
  le_value (field 0 8 (tick_bytes t)) = sequence_num t ∧
  le_value (field 8 8 (tick_bytes t)) = timestamp t ∧
  le_value (field 16 8 (tick_bytes t)) = dbits (price t) ∧
  le_value (field 24 4 (tick_bytes t)) = quantity t ∧
  field 28 4 (tick_bytes t) = symbol t.
Proof.
  apply (wire_facts.tick_layout (D := float));
    solve [ vm_compute; split; [discriminate|reflexivity] | reflexivity ].
Defined.

(** X9 on a draw: a price of 1.1 moved down by 0.2 is raised to 1.0. *)
Lemma generate_price_floor_run :
  let result := generate_price falling (replicate 10 (lit 1.1)) in
  dltb (price_at result.1 0) (d_lit 1) = false ∧
  (fundamental_dist falling = 1 ∨ anomaly_dist falling ≠ 1 →
   result.2 = price_at result.1 0).
Proof.
  apply (publisher_run_facts.generate_price_floor (D := float) falling
           (replicate 10 (lit 1.1))).
  - reflexivity.
  - simpl. lia.
Defined.

(** X10 on a run: after two ticks the third carries sequence number 3 and
    quantity 103, on whatever storage the ring started. *)
Lemma sequence_numbers_are_dense_run :
  let st := run_ticks [tick_input 0 1000; tick_input 1 2000]
              (publisher.initial [] []) in
  seq_num st = 3 ∧
  max_seq_ (ring_buffer st) = 2 ∧
  sequence_num (emitted (tick_input 2 3000) st) = 3 ∧
  quantity (emitted (tick_input 2 3000) st) = 103.
Proof.
  apply (publisher_run_facts.sequence_numbers_are_dense (D := float) [] []
           [tick_input 0 1000; tick_input 1 2000] (tick_input 2 3000)).
  unfold two64. simpl. lia.
Defined.

(** X11 on a run, on storage with a leftover slot: the second tick is
    dropped, and the ring answers a request for it. *)
Lemma dropped_tick_is_recoverable_run :
  let st := emit_tick (tick_input 0 1000) leftover in
  let st' := emit_tick dropping st in
  datagrams st' = datagrams st ∧
  msgs_sent_this_sec st' = msgs_sent_this_sec st ∧
  publisher.printed st' = publisher.printed st ++ [DroppedBroadcast 2] ∧
  response 8 2 (ring_buffer st') = tick_bytes (emitted dropping st).
Proof.
  apply (publisher_run_facts.dropped_tick_is_recoverable (D := float) dropping
           (emit_tick (tick_input 0 1000) leftover)).
  - vm_compute. done.
  - vm_compute. reflexivity.
  - reflexivity.
Defined.

(** X12 on a run: of a sent, a dropped and a sent tick, two are counted. *)
Lemma msgs_sent_counts_positive_sends_run :
  let ins := [tick_input 0 1000; dropping; tick_input 1 2000] in
  msgs_sent_this_sec (run_ticks ins started) =
    (msgs_sent_this_sec started +
     Z.of_nat (length (filter (λ inp, counted inp = true) ins))) `mod` two64 ∧
  (Forall (λ inp, drop_dist (draws inp) ≠ 1) ins →
   publisher.printed (run_ticks ins started) = publisher.printed started).
Proof.
  apply (publisher_run_facts.msgs_sent_counts_positive_sends (D := float)).
  unfold two64. simpl. lia.
Defined.

(** X14 on a run: after tick 1, tick 5 makes the subscriber ask for 2, 3
    and 4 in this order. *)
Lemma recovery_requests_the_missing_range_run :
  let st := (ingest_loop channel [Datagram 32 (tick 1 100)] subscriber.initial).1 in
  let st' := detect_gap channel (tick 5 104) st in
  attempts st' = attempts st ++ seqZ 2 3 ∧
  subscriber.printed st' =
    subscriber.printed st ++
    GapDetected 2 5 ::
    imap (λ k m, recovery_line (channel (length (attempts st) + k)%nat m) m)
      (seqZ 2 3) ∧
  ∃ lines, subscriber.printed (on_tick channel (tick 5 104) st) =
           subscriber.printed st' ++ lines.
Proof.
  apply (subscriber_run_facts.recovery_requests_the_missing_range channel
           (tick 5 104)
           (ingest_loop channel [Datagram 32 (tick 1 100)] subscriber.initial).1).
  - vm_compute. discriminate.
  - vm_compute. reflexivity.
Defined.

(** X15 on a run: a stream that starts at sequence number 7 and comes in
    order is consumed tick by tick. *)
Lemma in_order_stream_needs_no_recovery_run :
  let ticks := [tick 7 100; tick 8 101; tick 9 102] in
  ingest_loop channel (Datagram 32 <$> ticks) subscriber.initial =
  (foldl (λ acc t, consume t acc) subscriber.initial ticks, Waiting).
Proof.
  apply (subscriber_run_facts.in_order_stream_needs_no_recovery channel
           [tick 7 100; tick 8 101; tick 9 102] 7 subscriber.initial).
  - lia.
  - unfold two64. simpl. lia.
  - reflexivity.
  - left. reflexivity.
Defined.

(** X16 on a run: two ticks of the publisher around a datagram of 12
    bytes, with a channel that answers and with one that refuses every
    connection. *)
Lemma consumer_sees_the_in_band_stream_run :
  let inputs := [Datagram 32 (tick 1 100); Datagram 12 (tick 2 101);
                 Datagram 32 (tick 3 102)] in
  let refused : nat → Z → tcp_reply float := λ _ _, ConnectFailed in
  let run := ingest_loop channel inputs subscriber.initial in
  delivered run.1 = subscriber.delivered subscriber.initial ++ in_band inputs ∧
  expected_seq run.1 =
    from_option (λ t, (sequence_num t + 1) mod two64)
                (expected_seq subscriber.initial) (last (in_band inputs)) ∧
  consumer_view run.1 =
    consumer_view (ingest_loop refused inputs subscriber.initial).1 ∧
  run.2 = (ingest_loop refused inputs subscriber.initial).2.
Proof.
  apply (subscriber_run_facts.consumer_sees_the_in_band_stream channel
           (λ _ _, ConnectFailed)
           [Datagram 32 (tick 1 100); Datagram 12 (tick 2 101);
            Datagram 32 (tick 3 102)] subscriber.initial).
  vm_compute. repeat constructor.
Defined.

(** X18 on a run: the state kept under the key "AAP", which the ticks of
    symbol 0 carry, after two ticks. *)
Lemma strategy_state_invariant_run :
  let inputs := [Datagram 32 (tick 1 100); Datagram 32 (tick 3 102)] in
  let s := {| prices := [of_Z 100; of_Z 102]; idx := 0;
              sum := dadd (dadd (d_lit 0) (of_Z 100)) (of_Z 102);
              position := 0; entry_price := d_lit 0; pnl := d_lit 0;
              trades := 0; ticks_held := 0 |} in
  strategy_state (ingest_loop channel inputs subscriber.initial).1 !! "AAP"%string
    = Some s ∧
  symbol_ok s.
Proof.
  assert (strategy_state
            (ingest_loop channel
               [Datagram 32 (tick 1 100); Datagram 32 (tick 3 102)]
               subscriber.initial).1 !! "AAP"%string =
          Some {| prices := [of_Z 100; of_Z 102]; idx := 0;
                  sum := dadd (dadd (d_lit 0) (of_Z 100)) (of_Z 102);
                  position := 0; entry_price := d_lit 0; pnl := d_lit 0;
                  trades := 0; ticks_held := 0 |}) as Hlookup
    by (vm_compute; reflexivity).
  split; [exact Hlookup|].
  exact (trading_facts.strategy_state_invariant channel _ _ _ Hlookup).
Defined.

(** X19 on a run: two prices of a new symbol. *)
Lemma warm_up_collects_prices_run :
  feed "AAPL" [of_Z 100; of_Z 102] (new_symbol, of_Z 0, []) =
  ({| prices := [of_Z 100; of_Z 102]; idx := 0;
      sum := foldl dadd (d_lit 0) [of_Z 100; of_Z 102]; position := 0;
      entry_price := d_lit 0; pnl := d_lit 0; trades := 0; ticks_held := 0 |},
   of_Z 0, []).
Proof.
  apply (trading_facts.warm_up_collects_prices (D := float)). simpl. lia.
Defined.

(** X21 on a run: a position held from 100 dollars sees 99 dollars, stays
    open, and is marked at 99 dollars, the write index having wrapped. *)
Lemma open_position_is_marked_run :
  let s' := (trade "AAPL" (of_Z 99) long_position (of_Z 0)).1.1 in
  idx s' = 0 ∧ position s' = 1 ∧
  mark_to_market ("AAPL"%string, s') =
    Some (OpenPosition "AAPL" (of_Z 100) (of_Z 99) (of_Z (-100)), of_Z (-100)).
Proof.
  assert (position (trade "AAPL" (of_Z 99) long_position (of_Z 0)).1.1 = 1)
    as Hlong by (vm_compute; reflexivity).
  split; [vm_compute; reflexivity|]. split; [exact Hlong|].
  rewrite (trading_facts.open_position_is_marked_at_the_latest_price
             "AAPL" (of_Z 99) long_position (of_Z 0)).
  - vm_compute. reflexivity.
  - unfold symbol_ok, long_position, SMA_PERIOD.
    cbn [prices idx position ticks_held trades]. rewrite length_replicate. lia.
  - exact Hlong.
Defined.

(** X22 on a run: an interrupt before any tick. *)
Lemma report_without_open_positions_run :
  signal_handler SIGINT (subscriber.initial (D := float)) =
  (subscriber.print
     [ShuttingDown;
      FinalReport (d_lit 0) (d_lit 0) (dadd (d_lit 0) (d_lit 0))]
     subscriber.initial, Exit SIGINT).
Proof.
  apply (trading_facts.report_without_open_positions (D := float) SIGINT
           subscriber.initial).
  apply map_Forall_empty.
Defined.

(** X25 on two systems: where every call succeeds the listener is returned
    non-blocking; where [fcntl(F_GETFL)] fails the creator throws and the
    socket it opened is not closed. *)
Lemma listener_and_non_blocking_run :
  run (create_tcp_listener all_succeed 4 TCP_PORT) =
    (Returned 3,
     [Socket SOCK_STREAM; Setsockopt 3 (SO_REUSEADDR 1);
      Bind 3 INADDR_ANY TCP_PORT; Listen 3 128; FcntlGetfl 3;
      FcntlSetfl 3 6]) ∧
  ((run (create_tcp_listener getfl_fails 4 TCP_PORT)).1 =
     Threw "fcntl F_GETFL failed" ∨
   (run (create_tcp_listener getfl_fails 4 TCP_PORT)).1 =
     Threw "fcntl F_SETFL nonblock failed") ∧
  Close 3 ∉ (run (create_tcp_listener getfl_fails 4 TCP_PORT)).2.
Proof.
  split; [reflexivity|].
  refine (proj2 (setup_facts.listener_and_non_blocking getfl_fails 4 TCP_PORT
                   _ _ _ _) _); [simpl; lia..|].
  left. reflexivity.
Defined.
End more_runs.
